(** * tezsign FunctionFS registrar: the EP0 control-event loop

    A shallow embedding of [drainEP0Events] (the EP0 event loop of the
    gadget registrar) and of the pieces of Go's runtime it relies on:
    byte slices, [errors.Is], [binary.LittleEndian.PutUint16], the
    [os.File] read/write calls on the control endpoint, the atomic
    readiness cell, [slog] and [time.Sleep].

    Bytes and the other fixed-width integers are [Z] with the conversions
    written out; byte slices are [list Z], indexed with stdpp's list
    lookup and updated with its insert.

    After the loop come the attempt limiter of the gadget
    ([app/gadget/limiter.go]) and the logging package: the writer that
    empties its file ([logging/simple.go]), and the configuration, the
    handlers, [New] and [TailLastLines] ([logging/logging.go]).  Each has
    a module for its definitions and, after the facts about the loop, a
    module for its facts. *)

From Stdlib Require Import ZArith Lia String Sorted.
From stdpp Require Import base numbers list.

Local Open Scope Z_scope.

(** ** Go values *)

(** [byte(x)] on an unsigned integer keeps the low eight bits. *)
Definition byte (x : Z) : Z := Z.land x 255.

Definition is_byte (b : Z) : Prop := 0 <= b < 256.
Definition is_uint16 (x : Z) : Prop := 0 <= x < 65536.
Definition is_uint32 (x : Z) : Prop := 0 <= x < 4294967296.

(** A Go [error] value as far as [errors.Is] looks at it: the sentinel
    [io.EOF], some other leaf error, or an error wrapping another one
    (what [fmt.Errorf("...: %w", err)] and [*fs.PathError] build). *)
Inductive error : Type :=
| io_EOF
| err_other (msg : string)
| err_wrap (msg : string) (inner : error).

(** [errors.Is(err, io.EOF)]: walk the [Unwrap] chain looking for the
    sentinel. *)
Fixpoint errors_Is_EOF (err : error) : bool :=
  match err with
  | io_EOF => true
  | err_other _ => false
  | err_wrap _ inner => errors_Is_EOF inner
  end.

(** A [[]byte] argument: the [nil] slice or a slice over some bytes.  The
    file interface only ever sees the bytes. *)
Inductive slice : Type :=
| slice_nil
| slice_of (bytes : list Z).

Definition slice_bytes (s : slice) : list Z :=
  match s with
  | slice_nil => []
  | slice_of bytes => bytes
  end.

(** [time.Duration] counts nanoseconds. *)
Definition time_Second : Z := 1000000000.

(** [const ep0ReadRetryDelay = time.Second] *)
Definition ep0ReadRetryDelay : Z := time_Second.

(** [binary.LittleEndian.PutUint16(b, v)]: [b[0] = byte(v)],
    [b[1] = byte(v >> 8)].  The two stores are in range for every
    destination the loop passes (a two-byte window). *)
Definition LittleEndian_PutUint16 (b : list Z) (v : Z) : list Z :=
  <[1%nat := byte (Z.shiftr v 8)]> (<[0%nat := byte v]> b).

(** [copy(dst, src)]: overwrite the first [min(len(dst), len(src))]
    elements of [dst]. *)
Definition copy (dst src : list Z) : list Z :=
  take (length dst) src ++ drop (length src) dst.

(** Writing through a sub-slice [a[lo:hi]] updates the backing array [a]
    in place: [with_window a lo hi f] is [a] after [f] ran on that
    window. *)
Definition with_window (a : list Z) (lo hi : nat) (f : list Z -> list Z) : list Z :=
  take lo a ++ f (take (hi - lo) (drop lo a)) ++ drop hi a.

(** The ASCII codes of a string literal, as [[]byte("...")] gives them. *)
Definition bytes_of_string (s : string) : list Z :=
  map (fun c => Z.of_N (Ascii.N_of_ascii c)) (list_ascii_of_string s).

(** ** The SETUP packet *)

(** The decoded control request.  Field names are the ones
    [drainEP0Events] reads. *)
Record ctrlReq : Type := mkCtrlReq {
  bmRequestType : Z;
  bRequest : Z;
  wValue : Z;
  wIndex : Z;
  wLength : Z
}.

(** A little-endian u16 from its two bytes, [lo | hi<<8]. *)
Definition LittleEndian_Uint16 (lo hi : Z) : Z :=
  Z.lor lo (Z.shiftl hi 8).

(** Modelled from the spec: [parseCtrlReq] is not among the sources.  The
    spec's codec contract and wire format
    [[type:1][request:1][value:2 LE][index:2 LE][length:2 LE]]: given
    exactly 8 bytes, [requestType] is byte 0, [request] is byte 1 and
    [length] is the little-endian u16 of bytes 6-7.  The caller guarantees
    the 8 bytes; a missing byte reads as 0 here. *)
Definition parseCtrlReq (b : list Z) : ctrlReq :=
  let at_ (i : nat) := default 0 (b !! i) in
  {| bmRequestType := at_ 0%nat;
     bRequest := at_ 1%nat;
     wValue := LittleEndian_Uint16 (at_ 2%nat) (at_ 3%nat);
     wIndex := LittleEndian_Uint16 (at_ 4%nat) (at_ 5%nat);
     wLength := LittleEndian_Uint16 (at_ 6%nat) (at_ 7%nat) |}.

Arguments parseCtrlReq : simpl never.

(** ** Effects of the loop

    What [drainEP0Events] asks of its surroundings.  Each event is indexed
    by the type of the answer the program gets back. *)

Inductive level : Type := Info | Warn | Error.

(** A value logged under a key. *)
Inductive logval : Type :=
| LInt (z : Z)
| LErr (e : error)
| LDuration (d : Z).

Inductive ep0E : Type -> Type :=
| Read (buf : list Z) : ep0E (list Z * Z * option error)
    (* [n, err := ep0.Read(buf)]: the buffer as the call left it, n, err *)
| Write (p : slice) : ep0E (option error)
    (* [_, err := ep0.Write(p)] *)
| ReadyLoad : ep0E Z
    (* [ready.Load()] on the [atomic.Uint32] *)
| Log (lv : level) (msg : string) (attrs : list (string * logval)) : ep0E unit
    (* [l.Info], [l.Warn], [l.Error] *)
| Sleep (d : Z) : ep0E unit
    (* [time.Sleep(d)] *)
| Panic (msg : string) : ep0E Empty_set.
    (* a run-time panic: index out of range *)

(** Programs over these effects: a result, or an effect and what to do
    with its answer. *)
Inductive prog (A : Type) : Type :=
| Ret (a : A)
| Vis {X : Type} (e : ep0E X) (k : X -> prog A).

Arguments Ret {A} a.
Arguments Vis {A X} e k.

Fixpoint bind {A B : Type} (p : prog A) (f : A -> prog B) : prog B :=
  match p with
  | Ret a => f a
  | Vis e k => Vis e (fun x => bind (k x) f)
  end.

Definition trigger {X : Type} (e : ep0E X) : prog X := Vis e Ret.

(** [prog] is a monad in stdpp's sense, which brings the notations
    [x ← c; k] and [c;; k]. *)
#[global] Instance prog_ret : MRet prog := fun A a => Ret a.
#[global] Instance prog_bind : MBind prog := fun A B f p => bind p f.

(** How one pass through the body of the [for] leaves it: [continue] (or
    falling off the end), carrying the buffer, or [return]. *)
Inductive ctl : Type :=
| Continue (buf : list Z)
| Return.

(** ** The surroundings

    The device file, the readiness cell and the clock, as far as the loop
    can tell them apart: what each [Read] will return, what the cell holds
    and how a write fares at each instant, and the record of what the
    program did so far. *)

(** What one [ep0.Read] call delivers: the bytes the kernel has for it
    and the error it returns. *)
Record readResult : Type := mkRead {
  rr_data : list Z;
  rr_err : option error
}.

(** One effect the program performed, with the answer it got. *)
Inductive event : Type :=
| ERead (n : Z) (err : option error)
| EWrite (data : list Z) (err : option error)
| ELoad (v : Z)
| ELog (lv : level) (msg : string) (attrs : list (string * logval))
| ESleep (d : Z).

Record world : Type := mkWorld {
  pending : list readResult;   (* the reads to come; after them [Read] blocks *)
  cell : nat -> Z;             (* the readiness cell, instant by instant *)
  wfate : nat -> option error; (* how a write issued at an instant ends *)
  trace : list event           (* what happened so far, oldest first *)
}.

(** The current instant: one tick per effect performed. *)
Definition now (w : world) : nat := length (trace w).

Definition record (ev : event) (w : world) : world :=
  {| pending := pending w; cell := cell w; wfate := wfate w;
     trace := trace w ++ [ev] |}.

(** Why a program stopped without a result. *)
Inductive halt : Type :=
| BlockedInRead
| Panicked (msg : string).

Inductive answer (X : Type) : Type :=
| Answer (x : X)
| Halt (h : halt).

Arguments Answer {X} x.
Arguments Halt {X} h.

(** [read(2)] into [buf]: at most [len(buf)] of the delivered bytes land
    at the front of the buffer, the rest of it keeps what it held. *)
Definition fill (buf data : list Z) : list Z := copy buf data.

Definition read_n (buf data : list Z) : Z :=
  Z.of_nat (Nat.min (length data) (length buf)).

(** The surroundings answer one effect. *)
Definition handle {X : Type} (e : ep0E X) (w : world) : world * answer X :=
  match e in ep0E X return world * answer X with
  | Read buf =>
      match pending w with
      | [] => (w, Halt BlockedInRead)
      | r :: rest =>
          let n := read_n buf (rr_data r) in
          let w' := {| pending := rest; cell := cell w; wfate := wfate w;
                       trace := trace w ++ [ERead n (rr_err r)] |} in
          (w', Answer (fill buf (rr_data r), n, rr_err r))
      end
  | Write p =>
      let err := wfate w (now w) in
      (record (EWrite (slice_bytes p) err) w, Answer err)
  | ReadyLoad =>
      let v := cell w (now w) in
      (record (ELoad v) w, Answer v)
  | Log lv msg attrs => (record (ELog lv msg attrs) w, Answer tt)
  | Sleep d => (record (ESleep d) w, Answer tt)
  | Panic msg => (w, Halt (Panicked msg))
  end.

(** How a program ends in given surroundings. *)
Inductive outcome (A : Type) : Type :=
| Done (a : A)
| Halted (h : halt).

Arguments Done {A} a.
Arguments Halted {A} h.

Fixpoint run {A : Type} (p : prog A) (w : world) : world * outcome A :=
  match p with
  | Ret a => (w, Done a)
  | Vis e k =>
      match handle e w with
      | (w', Answer x) => run (k x) w'
      | (w', Halt h) => (w', Halted h)
      end
  end.

(** Projections of a trace. *)
Definition writes (evs : list event) : list (list Z) :=
  omap (fun ev => match ev with EWrite d _ => Some d | _ => None end) evs.

Definition reads (evs : list event) : list (Z * option error) :=
  omap (fun ev => match ev with ERead n e => Some (n, e) | _ => None end) evs.

Definition sleeps (evs : list event) : list Z :=
  omap (fun ev => match ev with ESleep d => Some d | _ => None end) evs.

Definition logs (evs : list event) : list (level * string) :=
  omap (fun ev => match ev with ELog lv msg _ => Some (lv, msg) | _ => None end) evs.

Definition loads (evs : list event) : list Z :=
  omap (fun ev => match ev with ELoad v => Some v | _ => None end) evs.

(** The read returned end-of-stream: an error that [errors.Is] matches
    with [io.EOF]. *)
Definition is_eof (r : readResult) : bool :=
  match rr_err r with
  | Some e => errors_Is_EOF e
  | None => false
  end.

(** The read failed with anything else. *)
Definition is_failure (r : readResult) : bool :=
  match rr_err r with
  | Some e => negb (errors_Is_EOF e)
  | None => false
  end.

(** ** The event loop *)

(** Build constants declared outside the sources at hand; the loop is
    modelled for any values of them. *)
Class build : Type := Build {
  evSize : Z;            (* size of one FunctionFS event record, a Go int *)
  evTypeSetup : Z;       (* event type of a SETUP event *)
  bmReqTypeVendorIn : Z; (* bmRequestType of a vendor IN request *)
  vendorReqReady : Z;    (* bRequest of the ready request *)
  protoVersion : Z       (* protocol version, passed as a uint16 *)
}.

Section Registrar.

Context {B : build}.

(** Lines 54-57: the reply array.
    [reply := [8]byte{}; copy(reply[:4], []byte("TZSG"));
     binary.LittleEndian.PutUint16(reply[4:6], protoVersion);
     reply[6] = byte(ready.Load())], with [loaded] the value the load
    returned. *)
Definition vendorReply (loaded : Z) : list Z :=
  let reply := replicate 8 0 in
  let reply := with_window reply 0 4 (fun d => copy d (bytes_of_string "TZSG")) in
  let reply := with_window reply 4 6 (fun d => LittleEndian_PutUint16 d protoVersion) in
  <[6%nat := byte loaded]> reply.

(** Lines 60-63: [wlen := int(req.wLength);
    if wlen > len(reply) { wlen = len(reply) }]. *)
Definition clampLen (reply : list Z) (wLen : Z) : Z :=
  let wlen := wLen in
  if Z.of_nat (length reply) <? wlen then Z.of_nat (length reply) else wlen.

(** [reply[:wlen]], the slice handed to [ep0.Write]. *)
Definition vendorReplyData (loaded wLen : Z) : list Z :=
  let reply := vendorReply loaded in
  take (Z.to_nat (clampLen reply wLen)) reply.

(** [if _, err := ep0.Write(p); err != nil { l.Error(msg, "err", err) }] *)
Definition writeOrLog (p : slice) (msg : string) : prog unit :=
  err ← trigger (Write p);
   match err with
   | Some e => trigger (Log Error msg [("err"%string, LErr e)])
   | None => Ret tt
   end.

(** One pass through the body of [for { ... }] in [drainEP0Events],
    entered with the buffer [buf]. *)
Definition iteration (buf : list Z) : prog ctl :=
  '(buf, n, err) ← trigger (Read buf);
   match err with
   | Some e =>
       if errors_Is_EOF e then Ret Return
       else
         trigger (Log Warn "ep0 read events failed; retrying"
                    [("err"%string, LErr e);
                     ("delay"%string, LDuration ep0ReadRetryDelay)]);;
         trigger (Sleep ep0ReadRetryDelay);;
         Ret (Continue buf)
   | None =>
       if n <? evSize then
         trigger (Log Warn "ep0 read event too short" [("n"%string, LInt n)]);;
         Ret (Continue buf)
       else
         match buf !! 8%nat with
         | None =>
             x ← trigger (Panic "index out of range [8]");
             match x : Empty_set with end
         | Some b8 =>
             let evType := b8 in
             if negb (evType =? evTypeSetup) then Ret (Continue buf)
             else
               let req := parseCtrlReq (take 8 buf) in
               trigger (Log Info "parsed"
                          [("type"%string, LInt (bmRequestType req));
                           ("request"%string, LInt (bRequest req));
                           ("length"%string, LInt (wLength req))]);;
               if (bmRequestType req =? bmReqTypeVendorIn)
                  && (bRequest req =? vendorReqReady)
               then
                 loaded ← trigger ReadyLoad;
                 writeOrLog (slice_of (vendorReplyData loaded (wLength req)))
                   "ep0 write vendor reply";;
                 Ret (Continue buf)
               else
                 trigger (Log Warn "Unhandled SETUP request, STALLING"
                            [("type"%string, LInt (bmRequestType req));
                             ("req"%string, LInt (bRequest req))]);;
                 writeOrLog slice_nil "ep0 write ZLP/STALL failed";;
                 Ret (Continue buf)
         end
   end.

(** How the loop stands after some passes. *)
Inductive status : Type :=
| Returned                 (* [return]: [drainEP0Events] is over *)
| Stopped (h : halt)       (* blocked in [Read] for good, or panicked *)
| Looping (buf : list Z).  (* at the top of the [for], about to read *)

(** [for { ... }]: at most [passes] passes through the body. *)
Fixpoint ep0Loop (passes : nat) (buf : list Z) (w : world) : world * status :=
  match passes with
  | O => (w, Looping buf)
  | S passes' =>
      match run (iteration buf) w with
      | (w', Done (Continue buf')) => ep0Loop passes' buf' w'
      | (w', Done Return) => (w', Returned)
      | (w', Halted h) => (w', Stopped h)
      end
  end.

(** [drainEP0Events(ep0, ready, l)]: [buf := make([]byte, evSize)], then
    the loop.  Every pass that continues has used up one read, so one pass
    more than there are reads to come always reaches the end of the
    run. *)
Definition drainEP0Events (w : world) : world * status :=
  ep0Loop (S (length (pending w))) (replicate (Z.to_nat evSize) 0) w.

(** ** Reading a pass off the next read *)

(** The surroundings once the next read was consumed and [evs] were
    recorded. *)
Definition advance (w : world) (rest : list readResult) (evs : list event) : world :=
  {| pending := rest; cell := cell w; wfate := wfate w; trace := trace w ++ evs |}.

(** The read event a pass entered with [buf] records for the result [r]. *)
Definition read_event (buf : list Z) (r : readResult) : event :=
  ERead (read_n buf (rr_data r)) (rr_err r).

(** What the [if _, err := ep0.Write(..); err != nil] tail records. *)
Definition write_events (data : list Z) (fate : option error) (msg : string) : list event :=
  EWrite data fate ::
  match fate with
  | Some e => [ELog Error msg [("err"%string, LErr e)]]
  | None => []
  end.

Definition parsed_event (req : ctrlReq) : event :=
  ELog Info "parsed"
    [("type"%string, LInt (bmRequestType req));
     ("request"%string, LInt (bRequest req));
     ("length"%string, LInt (wLength req))].

Definition stall_warning (req : ctrlReq) : event :=
  ELog Warn "Unhandled SETUP request, STALLING"
    [("type"%string, LInt (bmRequestType req));
     ("req"%string, LInt (bRequest req))].

Definition retry_events (e : error) : list event :=
  [ELog Warn "ep0 read events failed; retrying"
     [("err"%string, LErr e); ("delay"%string, LDuration ep0ReadRetryDelay)];
   ESleep ep0ReadRetryDelay].

Definition short_warning (n : Z) : event :=
  ELog Warn "ep0 read event too short" [("n"%string, LInt n)].

(** The request is the one vendor request the loop serves. *)
Definition is_ready_request (req : ctrlReq) : Prop :=
  bmRequestType req = bmReqTypeVendorIn /\ bRequest req = vendorReqReady.

(** ** Frames *)

(** The read succeeded and brought a whole event record. *)
Definition full_frame (buf : list Z) (r : readResult) : Prop :=
  rr_err r = None /\ evSize <= read_n buf (rr_data r).

(** The buffer after the read, which is what the pass looks at. *)
Definition frame (buf : list Z) (r : readResult) : list Z :=
  fill buf (rr_data r).

(** A whole record whose event-type byte says SETUP. *)
Definition setup_frame (buf : list Z) (r : readResult) : Prop :=
  full_frame buf r /\ frame buf r !! 8%nat = Some evTypeSetup.

(** The SETUP packet the pass decodes from the frame, [buf[0:8]]. *)
Definition request_of (buf : list Z) (r : readResult) : ctrlReq :=
  parseCtrlReq (take 8 (frame buf r)).

(** The pass entered with [buf] consumes the next read, records exactly
    [evs] and leaves [buf'] to the next pass: the loop carries on from
    there, and if a read is still to come, that read is the very next
    thing recorded after [evs]. *)
Definition goes_round (buf : list Z) (w : world) (evs : list event) (buf' : list Z) : Prop :=
  exists r rest,
    pending w = r :: rest /\
    run (iteration buf) w = (advance w rest evs, Done (Continue buf')) /\
    (forall k, ep0Loop (S k) buf w = ep0Loop k buf' (advance w rest evs)) /\
    (forall k r' rest', rest = r' :: rest' ->
       exists later,
         trace (ep0Loop (S (S k)) buf w).1 =
           trace w ++ evs ++ read_event buf' r' :: later).

(** What a pass records for a read that failed: the read, then the
    warning and the sleep. *)
Definition failed_pass_events (buf : list Z) (r : readResult) : list event :=
  read_event buf r ::
  match rr_err r with
  | Some e => retry_events e
  | None => []
  end.

End Registrar.

(** ** A build and some device scripts

    Values to run the model on.  The FunctionFS event record is 12 bytes
    (the 8-byte SETUP packet, the type byte, 3 bytes of padding) and the
    SETUP event has type 4, as in the layout the loop's comments show;
    0xC0 is device-to-host, vendor, device.  The request code and the
    protocol version stand in for the build's own. *)
Definition sample_build : build :=
  {| evSize := 12; evTypeSetup := 4; bmReqTypeVendorIn := 192;
     vendorReqReady := 1; protoVersion := 1 |}.

(** The ready request asking for [lo + 256 * hi] bytes. *)
Definition ready_frame (lo hi : Z) : readResult :=
  mkRead [192; 1; 0; 0; 0; 0; lo; hi; 4; 0; 0; 0] None.

(** The SETUP event of the loop's comments, a request it does not serve. *)
Definition foreign_frame : readResult :=
  mkRead [65; 90; 0; 0; 0; 0; 8; 0; 4; 0; 0; 0] None.

(** An event of another type (2, the function got enabled). *)
Definition enable_frame : readResult :=
  mkRead [0; 0; 0; 0; 0; 0; 0; 0; 2; 0; 0; 0] None.

Definition short_read : readResult := mkRead [65; 90; 0] None.

Definition failed_read : readResult :=
  mkRead [] (Some (err_wrap "read ep0" (err_other "input/output error"))).

Definition eof_read : readResult := mkRead [] (Some io_EOF).

(** Surroundings with the given reads to come, a cell that holds
    [stored] throughout and writes that succeed. *)
Definition quiet_world (rs : list readResult) (stored : Z) : world :=
  {| pending := rs; cell := fun _ => stored; wfate := fun _ => None; trace := [] |}.

(** The buffer [drainEP0Events] starts with in the sample build. *)
Definition fresh_buf : list Z := replicate 12 0.

(** Two passes that differ in everything but the requested length and the
    loaded value: another buffer, another history, other reads to come,
    a write that fails. *)
Definition busy_world : world :=
  {| pending := [ready_frame 5 0; eof_read];
     cell := fun _ => 1;
     wfate := fun _ => Some (err_other "broken pipe");
     trace := [ERead 3 None; short_warning 3] |}.

Definition stale_buf : list Z := [65; 90; 0; 7; 7; 7; 7; 7; 7; 7; 7; 7].

(** Worlds met while running a pass differ from [advance w rest evs] only
    in how the appended events are bracketed. *)
Ltac settle_world :=
  cbn;
  cbv [advance record now read_event write_events retry_events short_warning
       parsed_event stall_warning];
  cbn [pending cell wfate trace];
  rewrite <- ?app_assoc, ?length_app;
  cbn [pending cell wfate trace app length Nat.add];
  rewrite <- ?Nat.add_assoc;
  cbn [Nat.add].

(** * The attempt limiter

    [app/gadget/limiter.go]: at most [max] attempts in any [window]. *)

Module Limiter.

(** [attemptLimiter]: the mutex aside, a window, a bound and the instants of
    the attempts that count.  Instants ([time.Time], read off the monotonic
    clock) and durations are integers of nanoseconds; [After], [Add] and
    [Sub] are comparison, sum and difference, as they are away from the
    ends of the int64 range. *)
Record attemptLimiter : Type := mkLimiter {
  window : Z;
  max : Z;
  attempts : list Z
}.

(** [newAttemptLimiter(max, window)] *)
Definition newAttemptLimiter (max window : Z) : attemptLimiter :=
  {| window := window; max := max; attempts := [] |}.

(** What a call of [Allow] comes to: its two results, or a run-time
    panic. *)
Inductive verdict : Type :=
| Verdict (ok : bool) (wait : Z)
| Panic (msg : string).

(** [(l *attemptLimiter) Allow()], with [now] what [time.Now()] returned.
    The limiter is returned as the call leaves it. *)
Definition Allow (l : attemptLimiter) (now : Z) : attemptLimiter * verdict :=
  let cutoff := now + - window l in
  (* drop stale attempts outside the window *)
  let valid := filter (fun ts => cutoff < ts) (attempts l) in
  let l := {| window := window l; max := max l; attempts := valid |} in
  if max l <=? Z.of_nat (length (attempts l)) then
    match attempts l !! 0%nat with
    | None => (l, Panic "index out of range [0] with length 0")
    | Some oldest =>
        let wait := oldest + window l - now in
        let wait := if wait <? 0 then 0 else wait in
        (l, Verdict false wait)
    end
  else
    ({| window := window l; max := max l; attempts := attempts l ++ [now] |},
     Verdict true 0).

(** A series of calls, one at each of the given instants; [None] once a
    call panicked.  Each call is listed with its instant and whether it
    was let through. *)
Fixpoint calls (l : attemptLimiter) (times : list Z)
  : option (attemptLimiter * list (Z * bool)) :=
  match times with
  | [] => Some (l, [])
  | now :: later =>
      match Allow l now with
      | (l', Verdict ok _) =>
          match calls l' later with
          | Some (l'', out) => Some (l'', (now, ok) :: out)
          | None => None
          end
      | (_, Panic _) => None
      end
  end.

(** The instants of the calls that were let through. *)
Definition let_through (out : list (Z * bool)) : list Z :=
  omap (fun c : Z * bool => if c.2 then Some c.1 else None) out.

(** A limiter of two attempts in ten nanoseconds that holds two, made at
    the instants 0 and 1. *)
Definition full_limiter : attemptLimiter :=
  {| window := 10; max := 2; attempts := [0; 1] |}.

End Limiter.

(** * Reading the end of a log

    [TailLastLines] of [logging/logging.go]. *)

Module Tail.

(** An open file as [TailLastLines] meets it: its bytes, whether [Stat]
    succeeds on it, and the reads that fail (an error for the offsets at
    which [ReadAt] fails). *)
Record file : Type := mkFile {
  f_data : list Z;
  f_stat_ok : bool;
  f_fault : Z -> option error
}.

(** [f.ReadAt(tmp, pos)] with [len(tmp) = len]: the bytes from [pos] on,
    and [io.EOF] when the file has fewer than [len] of them. *)
Definition ReadAt (f : file) (len pos : Z) : list Z + error :=
  match f_fault f pos with
  | Some e => inr e
  | None =>
      let got := take (Z.to_nat len) (drop (Z.to_nat pos) (f_data f)) in
      if Z.of_nat (length got) <? len then inr io_EOF else inl got
  end.

(** [bufio.MaxScanTokenSize] *)
Definition MaxScanTokenSize : Z := 64 * 1024.

(** [bufio.ErrTooLong] *)
Definition ErrTooLong : error := err_other "bufio.Scanner: token too long".

(** [dropCR]: a line loses one trailing carriage return. *)
Definition dropCR (data : list Z) : list Z :=
  if decide (last data = Some 13) then take (length data - 1) data else data.

(** [for sc.Scan() { lines = append(lines, sc.Text()) }] and [sc.Err()],
    for a [bufio.Scanner] with the default split function [ScanLines] and
    the default buffer over the bytes [s]; [cur] is the line read so far.
    Lines end at a newline, the last one also at the end of the input if
    it is not empty; a line that reaches [MaxScanTokenSize] bytes without
    a newline stops the scan with [ErrTooLong]. *)
Fixpoint scan (cur s : list Z) : list (list Z) * option error :=
  match s with
  | [] =>
      if decide (cur = []) then ([], None)
      else if MaxScanTokenSize <=? Z.of_nat (length cur) then ([], Some ErrTooLong)
      else ([dropCR cur], None)
  | c :: s' =>
      if c =? 10 then
        if MaxScanTokenSize <=? Z.of_nat (length cur) then ([], Some ErrTooLong)
        else let '(lines, err) := scan [] s' in (dropCR cur :: lines, err)
      else scan (cur ++ [c]) s'
  end.

(** [const block = 64 * 1024] *)
Definition block : Z := 64 * 1024.

(** How the loop that gathers the chunks stands. *)
Inductive gathered : Type :=
| Gathered (chunks : list (list Z))  (* the loop condition failed *)
| ReadFailed (e : error)             (* [return nil, err] *)
| Unfinished.                        (* more passes than were allowed *)

(** [for pos > 0 && len(lines) <= n { ... }], at most [passes] passes. *)
Fixpoint gather (passes : nat) (f : file) (n : Z) (lines : list (list Z))
    (pos : Z) (chunks : list (list Z)) : gathered :=
  if (0 <? pos) && (Z.of_nat (length lines) <=? n) then
    match passes with
    | O => Unfinished
    | S passes' =>
        let read := block in
        let read := if pos <? read then pos else read in
        let pos := pos - read in
        match ReadAt f read pos with
        | inr e => ReadFailed e
        | inl tmp => gather passes' f n lines pos (chunks ++ [tmp])
        end
    end
  else Gathered chunks.

(** [for i := len(chunks) - 1; i >= 0; i-- { buf = append(buf, chunks[i]...) }] *)
Definition stitch (chunks : list (list Z)) : list Z :=
  foldl (fun buf chunk => buf ++ chunk) [] (reverse chunks).

Inductive tail : Type :=
| Lines (lines : list (list Z))  (* [return lines, nil] *)
| Fail (e : error)               (* [return nil, err] *)
| NilDeref                       (* panic: [stat.Size()] on a nil [FileInfo] *)
| Endless.                       (* the gathering loop was cut short *)

(** [TailLastLines(path, n)], with [open] what [os.Open] gives for a
    path.  Every pass of the gathering loop moves [pos] down by at least
    one, so one pass per byte is enough. *)
Definition TailLastLines (open : string -> file + error) (path : string) (n : Z) : tail :=
  let n := if n <=? 0 then 100 else n in
  match open path with
  | inr err => Fail err
  | inl f =>
      if negb (f_stat_ok f) then NilDeref
      else
        let size := Z.of_nat (length (f_data f)) in
        match gather (Z.to_nat size) f n [] size [] with
        | ReadFailed err => Fail err
        | Unfinished => Endless
        | Gathered chunks =>
            let buf := stitch chunks in
            let '(lines, err) := scan [] buf in
            match err with
            | Some err => Fail err
            | None =>
                let lines :=
                  if n <? Z.of_nat (length lines)
                  then drop (length lines - Z.to_nat n) lines
                  else lines in
                Lines lines
            end
        end
  end.

(** A line the scanner gives up on. *)
Definition too_long (line : list Z) : Prop := MaxScanTokenSize <= Z.of_nat (length line).

(** The lines of a file made of newline-terminated records and a last,
    unterminated one. *)
Definition lines_of (records : list (list Z)) (final : list Z) : list (list Z) :=
  map dropCR (records ++ (if decide (final = []) then [] else [final])).

(** A log of two records, the first with a carriage return, and an
    unterminated last line: "one\r\ntwo\nend". *)
Definition sample_log : file :=
  {| f_data := [111; 110; 101; 13; 10; 116; 119; 111; 10; 101; 110; 100];
     f_stat_ok := true;
     f_fault := fun _ => None |}.

(** A log with a run of 64 KiB of the letter a between two short
    lines. *)
Definition long_run : list Z := replicate (Z.to_nat MaxScanTokenSize) 97.

Definition long_log : file :=
  {| f_data := [97; 10] ++ long_run ++ [10; 98];
     f_stat_ok := true;
     f_fault := fun _ => None |}.

End Tail.

(** * The log file writer

    [logging/simple.go]: a writer that empties its file once [MaxSize]
    bytes went through it.  One file, which nothing else touches. *)

Module SimpleLog.

(** Errors of the file calls, as far as the writer tells them apart:
    [errors.Is(err, os.ErrPermission)] or not; [os.ErrClosed] is what a
    call on a closed [*os.File] returns. *)
Inductive fserror : Type :=
| ErrPermission
| ErrClosed
| ErrIO (msg : string).

Definition is_permission (e : fserror) : bool :=
  match e with
  | ErrPermission => true
  | _ => false
  end.

(** A system call the writer made. *)
Inductive op : Type :=
| OpOpen          (* [os.OpenFile(path, O_CREATE|O_WRONLY|O_TRUNC, 0o660)] *)
| OpRemove        (* [os.Remove(path)] *)
| OpChmodFile     (* [f.Chmod(0o660)] *)
| OpChmodPath     (* [os.Chmod(path, 0o660)] *)
| OpWrite (data : list Z)  (* [write(2)], with the bytes that got through *)
| OpClose.

(** A call that goes wrong: the error, and for a write how many bytes got
    through before it. *)
Record fault : Type := mkFault {
  fault_err : fserror;
  fault_partial : nat
}.

(** The disk as the writer meets it: the log file (absent, or its bytes),
    the calls made so far, and which calls go wrong (by the number of
    calls made before). *)
Record disk : Type := mkDisk {
  content : option (list Z);
  ops : list op;
  faults : nat -> option fault
}.

Definition next_fault (d : disk) : option fault := faults d (length (ops d)).

Definition did (o : op) (c : option (list Z)) (d : disk) : disk :=
  {| content := c; ops := ops d ++ [o]; faults := faults d |}.

(** An [*os.File]: all the writer needs of it is whether it was closed. *)
Record osFile : Type := mkFile { closed : bool }.

(** [os.OpenFile(path, os.O_CREATE|os.O_WRONLY|os.O_TRUNC, 0o660)]:
    success leaves the file empty. *)
Definition os_OpenFile (d : disk) : disk * (option osFile * option fserror) :=
  match next_fault d with
  | Some f => (did OpOpen (content d) d, (None, Some (fault_err f)))
  | None => (did OpOpen (Some []) d, (Some {| closed := false |}, None))
  end.

(** [os.Remove(path)] *)
Definition os_Remove (d : disk) : disk * option fserror :=
  match next_fault d with
  | Some f => (did OpRemove (content d) d, Some (fault_err f))
  | None => (did OpRemove None d, None)
  end.

(** [f.Chmod] and [os.Chmod], whose results the writer drops. *)
Definition os_Chmods (d : disk) : disk :=
  did OpChmodPath (content d) (did OpChmodFile (content d) d).

(** [f.Write(p)]: the bytes go after those already in the file. *)
Definition File_Write (f : osFile) (d : disk) (p : list Z) : disk * (Z * option fserror) :=
  if closed f then (d, (0, Some ErrClosed))
  else
    match next_fault d with
    | Some flt =>
        let got := take (fault_partial flt) p in
        (did (OpWrite got) (Some (default [] (content d) ++ got)) d,
         (Z.of_nat (length got), Some (fault_err flt)))
    | None =>
        (did (OpWrite p) (Some (default [] (content d) ++ p)) d,
         (Z.of_nat (length p), None))
    end.

(** [f.Close()] *)
Definition File_Close (f : osFile) (d : disk) : osFile * disk * option fserror :=
  if closed f then (f, d, Some ErrClosed)
  else
    ({| closed := true |}, did OpClose (content d) d,
     match next_fault d with
     | Some flt => Some (fault_err flt)
     | None => None
     end).

(** [SimpleLogResetWriter], the mutex aside. *)
Record SimpleLogResetWriter : Type := mkWriter {
  FilePath : string;
  MaxSize : Z;
  written : Z;
  File : option osFile
}.

Definition set_File (w : SimpleLogResetWriter) (f : option osFile) : SimpleLogResetWriter :=
  {| FilePath := FilePath w; MaxSize := MaxSize w; written := written w; File := f |}.

Definition set_written (w : SimpleLogResetWriter) (n : Z) : SimpleLogResetWriter :=
  {| FilePath := FilePath w; MaxSize := MaxSize w; written := n; File := File w |}.

(** [(w *SimpleLogResetWriter) openFile()] *)
Definition openFile (w : SimpleLogResetWriter) (d : disk)
  : SimpleLogResetWriter * disk * option fserror :=
  let '(d, (f, err)) := os_OpenFile d in
  let w := set_File w f in
  let '(w, d, err) :=
    match err with
    | Some e =>
        if is_permission e then
          let '(d, rmErr) := os_Remove d in
          match rmErr with
          | None =>
              let '(d, (f, err)) := os_OpenFile d in
              (set_File w f, d, err)
          | Some _ => (w, d, err)
          end
        else (w, d, err)
    | None => (w, d, err)
    end in
  match err, File w with
  | None, Some _ => (w, os_Chmods d, err)
  | _, _ => (w, d, err)
  end.

(** [NewSimpleLogResetWriter(filePath, maxSize)] *)
Definition NewSimpleLogResetWriter (filePath : string) (maxSize : Z) (d : disk)
  : disk * (SimpleLogResetWriter + fserror) :=
  let writer := {| FilePath := filePath; MaxSize := maxSize; written := 0; File := None |} in
  let '(writer, d, err) := openFile writer d in
  match err with
  | Some e => (d, inr e)
  | None => (d, inl writer)
  end.

(** [(w *SimpleLogResetWriter) resetIfNeeded()] *)
Definition resetIfNeeded (w : SimpleLogResetWriter) (d : disk) : SimpleLogResetWriter * disk :=
  if MaxSize w <=? written w then
    let w := set_written w 0 in
    let '(w, d) :=
      match File w with
      | Some f => let '(f, d, _) := File_Close f d in (set_File w (Some f), d)
      | None => (w, d)
      end in
    let '(w, d, _) := openFile w d in
    (w, d)
  else (w, d).

(** [(w *SimpleLogResetWriter) Write(p)] *)
Definition Write (w : SimpleLogResetWriter) (d : disk) (p : list Z)
  : SimpleLogResetWriter * disk * (Z * option fserror) :=
  let '(w, d) := resetIfNeeded w d in
  let w := set_written w (written w + Z.of_nat (length p)) in
  match File w with
  | None =>
      let '(w, d, err) := openFile w d in
      match err, File w with
      | Some e, _ => (w, d, (0, Some e))
      | None, Some f => let '(d, r) := File_Write f d p in (w, d, r)
      | None, None => (w, d, (0, Some (ErrIO "invalid argument")))
      end
  | Some f => let '(d, r) := File_Write f d p in (w, d, r)
  end.

(** [(w *SimpleLogResetWriter) Close()] *)
Definition Close (w : SimpleLogResetWriter) (d : disk)
  : SimpleLogResetWriter * disk * option fserror :=
  match File w with
  | Some f => let '(f, d, err) := File_Close f d in (set_File w (Some f), d, err)
  | None => (w, d, None)
  end.

(** A series of writes, one record after the other, with what each
    returned. *)
Fixpoint Writes (w : SimpleLogResetWriter) (d : disk) (ps : list (list Z))
  : SimpleLogResetWriter * disk * list (Z * option fserror) :=
  match ps with
  | [] => (w, d, [])
  | p :: ps' =>
      let '(w, d, r) := Write w d p in
      let '(w, d, rs) := Writes w d ps' in
      (w, d, r :: rs)
  end.

(** A disk on which no call goes wrong. *)
Definition healthy (d : disk) : Prop := forall i, faults d i = None.

(** The writer holds an open file whose bytes [c] it has counted. *)
Definition synced (w : SimpleLogResetWriter) (d : disk) (c : list Z) : Prop :=
  File w = Some {| closed := false |} /\
  content d = Some c /\
  written w = Z.of_nat (length c).

(** A disk with the given log file and no call made yet, on which no call
    goes wrong; and one on which the calls [bad] go wrong with [e]. *)
Definition clean_disk (c : option (list Z)) : disk :=
  {| content := c; ops := []; faults := fun _ => None |}.

Definition faulty_disk (c : option (list Z)) (bad : list nat) (e : fserror) : disk :=
  {| content := c; ops := [];
     faults := fun i => if bool_decide (i ∈ bad) then Some {| fault_err := e; fault_partial := 0 |}
                        else None |}.

(** A writer over an open file, and one without a file. *)
Definition open_writer (maxSize written : Z) : SimpleLogResetWriter :=
  {| FilePath := "registrar.log"; MaxSize := maxSize; written := written;
     File := Some {| closed := false |} |}.

Definition idle_writer (maxSize written : Z) : SimpleLogResetWriter :=
  {| FilePath := "registrar.log"; MaxSize := maxSize; written := written; File := None |}.

End SimpleLog.

(** * Configuration, handlers and the logger

    [logging/logging.go]. *)

Module Logging.

(** ** Configuration *)

(** [slog.LevelDebug], [LevelInfo], [LevelWarn], [LevelError], and the two
    levels the package adds. *)
Definition LevelDebug : Z := -4.
Definition LevelInfo : Z := 0.
Definition LevelWarn : Z := 4.
Definition LevelError : Z := 8.
Definition LevelAll : Z := -100.
Definition LevelFatal : Z := 20.

Record Config : Type := mkConfig {
  Level : Z;
  Format : string;
  File : string;
  AlsoStderr : bool;
  MaxSizeMB : Z;
  SetAsDefault : bool
}.

(** [DefaultConfig()] *)
Definition DefaultConfig : Config :=
  {| Level := LevelInfo; Format := "text"; File := ""; AlsoStderr := true;
     MaxSizeMB := 50; SetAsDefault := false |}.

(** The functions of Go's library the configuration is read with, taken
    as they come: [strings.ToLower], [strings.TrimSpace] and
    [strconv.Atoi] ([None] for an error). *)
Class golib : Type := GoLib {
  strings_ToLower : string -> string;
  strings_TrimSpace : string -> string;
  strconv_Atoi : string -> option Z
}.

(** One of the [case] strings of a [switch]. *)
Fixpoint is_one_of (s : string) (cases : list string) : bool :=
  match cases with
  | [] => false
  | c :: cases' => if String.eqb s c then true else is_one_of s cases'
  end.

Section Env.

Context {L : golib}.

(** [envBool(s, def)] *)
Definition envBool (s : string) (def : bool) : bool :=
  if String.eqb s "" then def
  else
    let l := strings_ToLower s in
    if is_one_of l ["1"; "true"; "t"; "yes"; "y"]%string then true
    else if is_one_of l ["0"; "false"; "f"; "no"; "n"]%string then false
    else def.

(** [envInt(s, def)] *)
Definition envInt (s : string) (def : Z) : Z :=
  if String.eqb s "" then def
  else
    match strconv_Atoi s with
    | Some v => v
    | None => def
    end.

(** [NewConfigFromEnv()], with [getenv] standing for [os.Getenv]: the
    value of a variable, empty when it is not set. *)
Definition NewConfigFromEnv (getenv : string -> string) : Config :=
  let cfg := DefaultConfig in
  (* Level *)
  let lvl := strings_ToLower (getenv "LOG_LEVEL"%string) in
  let level :=
    if is_one_of lvl ["all"]%string then LevelAll
    else if is_one_of lvl ["debug"]%string then LevelDebug
    else if is_one_of lvl ["warn"; "warning"]%string then LevelWarn
    else if is_one_of lvl ["error"]%string then LevelError
    else if is_one_of lvl ["fatal"]%string then LevelFatal
    else Level cfg in
  (* Format *)
  let fmt := strings_ToLower (getenv "LOG_FORMAT"%string) in
  let format :=
    if is_one_of fmt ["json"]%string then "json"%string
    else if is_one_of fmt ["text"; ""]%string then "text"%string
    else Format cfg in
  {| Level := level;
     Format := format;
     File := strings_TrimSpace (getenv "LOG_FILE"%string);
     AlsoStderr := envBool (getenv "LOG_STDERR"%string) true;
     MaxSizeMB := envInt (getenv "LOG_MAX_SIZE_MB"%string) 5;
     SetAsDefault := true |}.

End Env.

(** ** Handlers *)

(** [int] arithmetic on a 64-bit target wraps around. *)
Definition wrap_int (x : Z) : Z := (x + 2 ^ 63) mod 2 ^ 64 - 2 ^ 63.

Definition int_mul (x y : Z) : Z := wrap_int (x * y).

(** The [slog.Handler] interface, in two parts: [Enabled], and the
    methods that take a record of type [R], act on a state [S] and derive
    handlers with attributes of type [A]. *)
Class Leveled (H : Type) : Type := mkLeveled {
  Enabled : H -> Z -> bool
}.

Class Handler (S R A H : Type) : Type := mkHandler {
  Handler_Leveled :: Leveled H;
  Handle : H -> R -> S -> S * option error;
  WithAttrs : H -> list A -> H;
  WithGroup : H -> string -> H
}.

(** [MultiHandler{hs}] *)
Record MultiHandler (H : Type) : Type := mkMulti { hs : list H }.

Arguments mkMulti {H}.
Arguments hs {H}.

(** [(m MultiHandler) Enabled(ctx, lvl)] *)
Fixpoint any_enabled {H : Type} `{!Leveled H} (handlers : list H) (lvl : Z) : bool :=
  match handlers with
  | [] => false
  | h :: rest => if Enabled h lvl then true else any_enabled rest lvl
  end.

Definition MultiHandler_Enabled {H : Type} `{!Leveled H} (m : MultiHandler H) (lvl : Z) : bool :=
  any_enabled (hs m) lvl.

#[global] Instance MultiHandler_Leveled {H : Type} `{!Leveled H} : Leveled (MultiHandler H) :=
  {| Enabled := MultiHandler_Enabled |}.

Section MultiHandler.

Context {S R A H : Type} `{!Handler S R A H}.

(** The loop of [(m MultiHandler) Handle(ctx, r)], entered with
    [firstErr]. *)
Fixpoint handle_all (handlers : list H) (r : R) (s : S) (firstErr : option error)
  : S * option error :=
  match handlers with
  | [] => (s, firstErr)
  | h :: rest =>
      let '(s, err) := Handle h r s in
      let firstErr :=
        match err, firstErr with
        | Some e, None => Some e
        | _, _ => firstErr
        end in
      handle_all rest r s firstErr
  end.

(** [(m MultiHandler) Handle(ctx, r)] *)
Definition MultiHandler_Handle (m : MultiHandler H) (r : R) (s : S) : S * option error :=
  handle_all (hs m) r s None.

(** [(m MultiHandler) WithAttrs(attrs)] *)
Definition MultiHandler_WithAttrs (m : MultiHandler H) (attrs : list A) : MultiHandler H :=
  {| hs := map (fun h => WithAttrs h attrs) (hs m) |}.

(** [(m MultiHandler) WithGroup(name)] *)
Definition MultiHandler_WithGroup (m : MultiHandler H) (name : string) : MultiHandler H :=
  {| hs := map (fun h => WithGroup h name) (hs m) |}.

#[global] Instance MultiHandler_Handler : Handler S R A (MultiHandler H) :=
  {| Handle := MultiHandler_Handle;
     WithAttrs := MultiHandler_WithAttrs;
     WithGroup := MultiHandler_WithGroup |}.

(** What each handler of a list returns when the record is handed to them
    in turn, each acting on the state the one before left. *)
Fixpoint answers (handlers : list H) (r : R) (s : S) : list (option error) :=
  match handlers with
  | [] => []
  | h :: rest => let '(s, err) := Handle h r s in err :: answers rest r s
  end.

(** The first error among such answers, if any. *)
Definition first_error (res : list (option error)) : option error :=
  head (omap id res).

(** The state they leave. *)
Fixpoint after_all (handlers : list H) (r : R) (s : S) : S :=
  match handlers with
  | [] => s
  | h :: rest => after_all rest r (Handle h r s).1
  end.

End MultiHandler.

(** [fatalFileHandler], with [A] for [slog.Attr]. *)
Record fatalFileHandler (A : Type) : Type := mkFatal {
  basePath : string;
  format : string;
  attrs : list A;
  groups : list string
}.

Arguments mkFatal {A}.
Arguments basePath {A}.
Arguments format {A}.
Arguments attrs {A}.
Arguments groups {A}.

(** [newFatalFileHandler(basePath, format)] *)
Definition newFatalFileHandler {A : Type} (basePath format : string) : fatalFileHandler A :=
  {| basePath := basePath; format := format; attrs := []; groups := [] |}.

(** [(h fatalFileHandler) Enabled(_, level)] *)
Definition fatal_Enabled {A : Type} (h : fatalFileHandler A) (level : Z) : bool :=
  LevelFatal <=? level.

(** [(h fatalFileHandler) WithAttrs(attrs)].  The receiver is a copy, so
    the handler the call was made on keeps its lists; the lists here are
    what each handler holds when it is returned. *)
Definition fatal_WithAttrs {A : Type} (h : fatalFileHandler A) (more : list A)
  : fatalFileHandler A :=
  {| basePath := basePath h; format := format h;
     attrs := attrs h ++ more; groups := groups h |}.

(** [(h fatalFileHandler) WithGroup(name)] *)
Definition fatal_WithGroup {A : Type} (h : fatalFileHandler A) (name : string)
  : fatalFileHandler A :=
  {| basePath := basePath h; format := format h;
     attrs := attrs h; groups := groups h ++ [name] |}.

(** A derivation step on a handler: [WithAttrs] or [WithGroup]. *)
Inductive derive (A : Type) : Type :=
| AddAttrs (more : list A)
| AddGroup (name : string).

Arguments AddAttrs {A}.
Arguments AddGroup {A}.

Definition fatal_derive {A : Type} (h : fatalFileHandler A) (steps : list (derive A))
  : fatalFileHandler A :=
  foldl (fun h step =>
           match step with
           | AddAttrs more => fatal_WithAttrs h more
           | AddGroup name => fatal_WithGroup h name
           end) h steps.

(** The attributes and the groups of a series of steps, each kind in its
    order. *)
Definition attrs_of {A : Type} (steps : list (derive A)) : list A :=
  concat (omap (fun step => match step with AddAttrs more => Some more | _ => None end) steps).

Definition groups_of {A : Type} (steps : list (derive A)) : list string :=
  omap (fun step => match step with AddGroup name => Some name | _ => None end) steps.

(** ** Building the logger *)

(** Where a text or JSON handler writes. *)
Inductive sink : Type :=
| Stderr     (* [os.Stderr] *)
| LogWriter. (* the [SimpleLogResetWriter] of the log file *)

(** The handlers [New] makes: [slog.NewTextHandler(w, &slog.HandlerOptions{Level: level})],
    [slog.NewJSONHandler] likewise, and the fatal-file handler. *)
Inductive leaf (A : Type) : Type :=
| TextHandler (out : sink) (level : Z)
| JSONHandler (out : sink) (level : Z)
| FatalHandler (h : fatalFileHandler A).

Arguments TextHandler {A}.
Arguments JSONHandler {A}.
Arguments FatalHandler {A}.

(** [Enabled] of each: the library's handlers accept a level at or above
    their [Level] option. *)
Definition leaf_Enabled {A : Type} (h : leaf A) (lvl : Z) : bool :=
  match h with
  | TextHandler _ level => level <=? lvl
  | JSONHandler _ level => level <=? lvl
  | FatalHandler f => fatal_Enabled f lvl
  end.

#[global] Instance leaf_Leveled {A : Type} : Leveled (leaf A) :=
  {| Enabled := leaf_Enabled |}.

(** The handler [New] gives its logger: one of these, or a
    [MultiHandler] over several. *)
Inductive built (A : Type) : Type :=
| Single (h : leaf A)
| Multi (m : MultiHandler (leaf A)).

Arguments Single {A}.
Arguments Multi {A}.

Definition built_Enabled {A : Type} (h : built A) (lvl : Z) : bool :=
  match h with
  | Single l => Enabled l lvl
  | Multi m => Enabled m lvl
  end.

(** What [New] leaves behind it: the disk, the path [CurrentFile()]
    returns, what was printed on stderr about a log file that could not
    be opened, and the handler of [slog]'s default logger if it was
    set. *)
Record process (A : Type) : Type := mkProcess {
  p_disk : SimpleLog.disk;
  curFilePath : string;
  p_complaints : list (string * SimpleLog.fserror);
  p_default : option (built A)
}.

Arguments mkProcess {A}.
Arguments p_disk {A}.
Arguments curFilePath {A}.
Arguments p_complaints {A}.
Arguments p_default {A}.

(** [New(cfg)]: the handler of the logger, the writer (or nil), and the
    process afterwards. *)
Definition New {A : Type} (cfg : Config) (p : process A)
  : built A * option SimpleLog.SimpleLogResetWriter * process A :=
  let handlers : list (leaf A) := [] in
  let '(handlers, logWriter, p) :=
    if negb (String.eqb (File cfg) "") then
      let '(d, r) :=
        SimpleLog.NewSimpleLogResetWriter (File cfg)
          (int_mul (int_mul (MaxSizeMB cfg) 1024) 1024) (p_disk p) in
      match r with
      | inr err =>
          (handlers, None,
           {| p_disk := d; curFilePath := curFilePath p;
              p_complaints := p_complaints p ++ [(File cfg, err)];
              p_default := p_default p |})
      | inl lw =>
          let p := {| p_disk := d; curFilePath := File cfg;
                      p_complaints := p_complaints p;
                      p_default := p_default p |} in
          if String.eqb (Format cfg) "json"
          then (handlers ++ [JSONHandler LogWriter (Level cfg)], Some lw, p)
          else (handlers ++ [TextHandler LogWriter (Level cfg)], Some lw, p)
      end
    else (handlers, None, p) in
  (* fatal-only handler next to the main log *)
  let handlers :=
    if negb (String.eqb (File cfg) "")
    then handlers ++ [FatalHandler (newFatalFileHandler (File cfg) (Format cfg))]
    else handlers in
  (* stderr handler *)
  let handlers :=
    if AlsoStderr cfg then
      if String.eqb (Format cfg) "json"
      then handlers ++ [JSONHandler Stderr (Level cfg)]
      else handlers ++ [TextHandler Stderr (Level cfg)]
    else handlers in
  let h :=
    match handlers with
    | [] => Single (TextHandler Stderr (Level cfg))
    | [h0] => Single h0
    | _ => Multi {| hs := handlers |}
    end in
  let p :=
    if SetAsDefault cfg
    then {| p_disk := p_disk p; curFilePath := curFilePath p;
            p_complaints := p_complaints p; p_default := Some h |}
    else p in
  (h, logWriter, p).

(** [NewFromEnv()] *)
Definition NewFromEnv {A : Type} `{L : golib} (getenv : string -> string) (p : process A)
  : built A * option SimpleLog.SimpleLogResetWriter * process A :=
  New (NewConfigFromEnv getenv) p.

(** A process that has not logged yet, over a given disk. *)
Definition fresh_process (d : SimpleLog.disk) : process Z :=
  {| p_disk := d; curFilePath := ""; p_complaints := []; p_default := None |}.

(** The default configuration with a log file of 5 MiB. *)
Definition file_config : Config :=
  {| Level := LevelInfo; Format := "text"; File := "registrar.log"; AlsoStderr := true;
     MaxSizeMB := 5; SetAsDefault := true |}.

(** An environment already in lower case and without spaces around its
    values, for which [strings.ToLower] and [strings.TrimSpace] change
    nothing, and in which no value is a number. *)
Definition plain_golib : golib :=
  {| strings_ToLower := fun s => s;
     strings_TrimSpace := fun s => s;
     strconv_Atoi := fun _ => None |}.

(** [LOG_FILE=registrar.log LOG_STDERR=0 LOG_LEVEL=debug] *)
Definition file_only_env (name : string) : string :=
  if String.eqb name "LOG_FILE" then "registrar.log"
  else if String.eqb name "LOG_STDERR" then "0"
  else if String.eqb name "LOG_LEVEL" then "debug"
  else "".

(** Every case of [New]: whether a file is asked for, whether it could be
    opened, the format, stderr, the default logger. *)
Ltac New_cases cfg p :=
  unfold New;
  destruct (String.eqb_spec (File cfg) "") as [Hfile|Hfile]; cbn [negb];
  [|destruct (SimpleLog.NewSimpleLogResetWriter (File cfg)
               (int_mul (int_mul (MaxSizeMB cfg) 1024) 1024) (p_disk p))
      as [d [w|e]] eqn:Hnew];
  destruct (String.eqb (Format cfg) "json") eqn:Hfmt;
  destruct (AlsoStderr cfg) eqn:Hstderr;
  destruct (SetAsDefault cfg) eqn:Hdef;
  cbn.

End Logging.

(** * Facts *)

Section RegistrarFacts.

Context {B : build}.

Lemma run_blocked buf w :
  pending w = [] -> run (iteration buf) w = (w, Halted BlockedInRead).
Proof. intros H. cbn. rewrite H. reflexivity. Qed.

Lemma run_eof buf w r rest e :
  pending w = r :: rest -> rr_err r = Some e -> errors_Is_EOF e = true ->
  run (iteration buf) w = (advance w rest [read_event buf r], Done Return).
Proof.
  intros Hp He Heof. cbn. rewrite Hp. cbn. rewrite He, Heof. cbn.
  unfold advance, read_event. rewrite He. reflexivity.
Qed.

Lemma run_failure buf w r rest e :
  pending w = r :: rest -> rr_err r = Some e -> errors_Is_EOF e = false ->
  run (iteration buf) w =
    (advance w rest (read_event buf r :: retry_events e),
     Done (Continue (fill buf (rr_data r)))).
Proof.
  intros Hp He Heof. cbn. rewrite Hp. cbn. rewrite He, Heof.
  settle_world. rewrite He. reflexivity.
Qed.

Lemma run_short buf w r rest :
  pending w = r :: rest -> rr_err r = None ->
  read_n buf (rr_data r) < evSize ->
  run (iteration buf) w =
    (advance w rest [read_event buf r; short_warning (read_n buf (rr_data r))],
     Done (Continue (fill buf (rr_data r)))).
Proof.
  intros Hp He Hn. cbn. rewrite Hp. cbn. rewrite He.
  destruct (Z.ltb_spec (read_n buf (rr_data r)) evSize) as [_|Hge]; [|lia].
  settle_world. rewrite He. reflexivity.
Qed.

Lemma run_panic buf w r rest :
  pending w = r :: rest -> rr_err r = None ->
  evSize <= read_n buf (rr_data r) ->
  fill buf (rr_data r) !! 8%nat = None ->
  run (iteration buf) w =
    (advance w rest [read_event buf r], Halted (Panicked "index out of range [8]")).
Proof.
  intros Hp He Hn H8. cbn. rewrite Hp. cbn. rewrite He.
  destruct (Z.ltb_spec (read_n buf (rr_data r)) evSize) as [Hlt|_]; [lia|].
  rewrite H8. settle_world. rewrite He. reflexivity.
Qed.

Lemma run_other_event buf w r rest t :
  pending w = r :: rest -> rr_err r = None ->
  evSize <= read_n buf (rr_data r) ->
  fill buf (rr_data r) !! 8%nat = Some t -> t <> evTypeSetup ->
  run (iteration buf) w =
    (advance w rest [read_event buf r], Done (Continue (fill buf (rr_data r)))).
Proof.
  intros Hp He Hn H8 Ht. cbn. rewrite Hp. cbn. rewrite He.
  destruct (Z.ltb_spec (read_n buf (rr_data r)) evSize) as [Hlt|_]; [lia|].
  rewrite H8. destruct (Z.eqb_spec t evTypeSetup) as [|_]; [contradiction|].
  settle_world. rewrite He. reflexivity.
Qed.

Lemma run_stall buf w r rest :
  pending w = r :: rest -> rr_err r = None ->
  evSize <= read_n buf (rr_data r) ->
  fill buf (rr_data r) !! 8%nat = Some evTypeSetup ->
  ~ is_ready_request (parseCtrlReq (take 8 (fill buf (rr_data r)))) ->
  run (iteration buf) w =
    (advance w rest
       (read_event buf r ::
        parsed_event (parseCtrlReq (take 8 (fill buf (rr_data r)))) ::
        stall_warning (parseCtrlReq (take 8 (fill buf (rr_data r)))) ::
        write_events [] (wfate w (now w + 3)%nat) "ep0 write ZLP/STALL failed"),
     Done (Continue (fill buf (rr_data r)))).
Proof.
  intros Hp He Hn H8 Hreq. cbn. rewrite Hp. cbn. rewrite He.
  destruct (Z.ltb_spec (read_n buf (rr_data r)) evSize) as [Hlt|_]; [lia|].
  rewrite H8, Z.eqb_refl. cbn.
  set (req := parseCtrlReq _) in *.
  destruct (Z.eqb_spec (bmRequestType req) bmReqTypeVendorIn) as [Ha|_];
    [destruct (Z.eqb_spec (bRequest req) vendorReqReady) as [Hb|_];
       [exfalso; apply Hreq; split; assumption|]|];
    settle_world; rewrite He;
    destruct (wfate w _); settle_world; reflexivity.
Qed.

Lemma run_ready buf w r rest :
  pending w = r :: rest -> rr_err r = None ->
  evSize <= read_n buf (rr_data r) ->
  fill buf (rr_data r) !! 8%nat = Some evTypeSetup ->
  is_ready_request (parseCtrlReq (take 8 (fill buf (rr_data r)))) ->
  run (iteration buf) w =
    (advance w rest
       (read_event buf r ::
        parsed_event (parseCtrlReq (take 8 (fill buf (rr_data r)))) ::
        ELoad (cell w (now w + 2)%nat) ::
        write_events
          (vendorReplyData (cell w (now w + 2)%nat)
             (wLength (parseCtrlReq (take 8 (fill buf (rr_data r))))))
          (wfate w (now w + 3)%nat) "ep0 write vendor reply"),
     Done (Continue (fill buf (rr_data r)))).
Proof.
  intros Hp He Hn H8 [Ha Hb]. cbn. rewrite Hp. cbn. rewrite He.
  destruct (Z.ltb_spec (read_n buf (rr_data r)) evSize) as [Hlt|_]; [lia|].
  rewrite H8, Z.eqb_refl. cbn.
  set (req := parseCtrlReq _) in *.
  destruct (Z.eqb_spec (bmRequestType req) bmReqTypeVendorIn) as [_|]; [|contradiction].
  destruct (Z.eqb_spec (bRequest req) vendorReqReady) as [_|]; [|contradiction].
  settle_world. rewrite He.
  destruct (wfate w _); settle_world; reflexivity.
Qed.

(** ** Bytes of the reply *)

Lemma byte_mod x : byte x = x mod 256.
Proof. unfold byte. change 255 with (Z.ones 8). rewrite Z.land_ones by lia. reflexivity. Qed.

Lemma byte_range x : is_byte (byte x).
Proof. rewrite byte_mod. unfold is_byte. apply Z.mod_pos_bound. lia. Qed.

Lemma shiftr8_div x : Z.shiftr x 8 = x / 256.
Proof. rewrite Z.shiftr_div_pow2 by lia. reflexivity. Qed.

Lemma vendorReply_bytes loaded :
  vendorReply loaded =
    [84; 90; 83; 71; byte protoVersion; byte (Z.shiftr protoVersion 8); byte loaded; 0].
Proof. reflexivity. Qed.

Lemma vendorReply_length loaded : length (vendorReply loaded) = 8%nat.
Proof. reflexivity. Qed.

Lemma PutUint16_little_endian :
  is_uint16 protoVersion ->
  byte protoVersion = protoVersion mod 256 /\
  byte (Z.shiftr protoVersion 8) = protoVersion / 256 /\
  byte protoVersion + 256 * byte (Z.shiftr protoVersion 8) = protoVersion.
Proof.
  intros [Hlo Hhi]. rewrite !byte_mod, shiftr8_div.
  assert (Hq : 0 <= protoVersion / 256 < 256).
  { split; [apply Z.div_pos; lia | apply Z.div_lt_upper_bound; lia]. }
  rewrite (Z.mod_small (protoVersion / 256)) by exact Hq.
  repeat split. pose proof (Z.div_mod protoVersion 256). lia.
Qed.

Lemma clampLen_min loaded wLen :
  clampLen (vendorReply loaded) wLen = Z.min wLen 8.
Proof.
  unfold clampLen. rewrite vendorReply_length.
  change (Z.of_nat 8) with 8.
  destruct (Z.ltb_spec 8 wLen); lia.
Qed.

Lemma vendorReplyData_take loaded wLen :
  vendorReplyData loaded wLen = take (Z.to_nat (Z.min wLen 8)) (vendorReply loaded).
Proof. unfold vendorReplyData. cbv zeta. rewrite clampLen_min. reflexivity. Qed.

Lemma vendorReplyData_length loaded wLen :
  0 <= wLen ->
  Z.of_nat (length (vendorReplyData loaded wLen)) = Z.min wLen 8.
Proof.
  intros Hl. rewrite vendorReplyData_take, length_take, vendorReply_length. lia.
Qed.

(** ** The buffer across passes *)

Lemma fill_length buf data : length (fill buf data) = length buf.
Proof.
  unfold fill, copy. rewrite length_app, length_take, length_drop. lia.
Qed.

Lemma read_n_bound buf data : 0 <= read_n buf data <= Z.of_nat (length buf).
Proof. unfold read_n. lia. Qed.

(** A whole record fills the loop's buffer from end to end: nothing of
    what the buffer held before shows in the frame. *)
Lemma whole_frame_overwrites buf r :
  Z.of_nat (length buf) = evSize -> full_frame buf r ->
  frame buf r = take (length buf) (rr_data r).
Proof.
  intros Hlen [_ Hn]. unfold frame, fill, copy, read_n in *.
  rewrite drop_ge by lia. apply app_nil_r.
Qed.

(** ** Every pass, by cases *)

Lemma is_ready_request_dec req : {is_ready_request req} + {~ is_ready_request req}.
Proof.
  unfold is_ready_request.
  destruct (Z.eq_dec (bmRequestType req) bmReqTypeVendorIn);
    destruct (Z.eq_dec (bRequest req) vendorReqReady); tauto.
Qed.

(** A pass that finds a read result either returns (on end-of-stream),
    or goes round again having read nothing more, or panics on the
    event-type index, which takes a buffer of at most 8 bytes. *)
Lemma pass_cases buf w r rest :
  pending w = r :: rest ->
  (is_eof r = true /\
   run (iteration buf) w = (advance w rest [read_event buf r], Done Return))
  \/ (is_eof r = false /\
      exists evs, reads evs = [] /\
        run (iteration buf) w =
          (advance w rest (read_event buf r :: evs),
           Done (Continue (fill buf (rr_data r)))))
  \/ (is_eof r = false /\ evSize <= 8 /\
      exists msg,
        run (iteration buf) w = (advance w rest [read_event buf r], Halted (Panicked msg))).
Proof.
  intros Hp. unfold is_eof.
  destruct (rr_err r) as [e|] eqn:He.
  - destruct (errors_Is_EOF e) eqn:Heof.
    + left. split; [reflexivity|]. eapply run_eof; eassumption.
    + right. left. split; [reflexivity|].
      exists (retry_events e). split; [reflexivity|].
      eapply run_failure; eassumption.
  - right.
    destruct (Z.lt_ge_cases (read_n buf (rr_data r)) evSize) as [Hn|Hn].
    { left. split; [reflexivity|].
      exists [short_warning (read_n buf (rr_data r))]. split; [reflexivity|].
      apply run_short; assumption. }
    destruct (fill buf (rr_data r) !! 8%nat) as [t|] eqn:H8.
    2:{ right. split; [reflexivity|]. split.
        - apply lookup_ge_None in H8. rewrite fill_length in H8.
          pose proof (read_n_bound buf (rr_data r)). lia.
        - eexists. apply run_panic; assumption. }
    left. split; [reflexivity|].
    destruct (Z.eq_dec t evTypeSetup) as [->|Ht].
    2:{ exists []. split; [reflexivity|]. eapply run_other_event; eassumption. }
    destruct (is_ready_request_dec (parseCtrlReq (take 8 (fill buf (rr_data r)))))
      as [Hreq|Hreq].
    + eexists. split; [|apply run_ready; assumption].
      unfold write_events. destruct (wfate w _); reflexivity.
    + eexists. split; [|apply run_stall; assumption].
      unfold write_events. destruct (wfate w _); reflexivity.
Qed.

(** ** The loop *)

Lemma ep0Loop_continue k buf w buf' w' :
  run (iteration buf) w = (w', Done (Continue buf')) ->
  ep0Loop (S k) buf w = ep0Loop k buf' w'.
Proof. intros H. cbn [ep0Loop]. rewrite H. reflexivity. Qed.

Lemma ep0Loop_return k buf w w' :
  run (iteration buf) w = (w', Done Return) ->
  ep0Loop (S k) buf w = (w', Returned).
Proof. intros H. cbn [ep0Loop]. rewrite H. reflexivity. Qed.

Lemma ep0Loop_halt k buf w w' h :
  run (iteration buf) w = (w', Halted h) ->
  ep0Loop (S k) buf w = (w', Stopped h).
Proof. intros H. cbn [ep0Loop]. rewrite H. reflexivity. Qed.

Lemma advance_advance w rest evs rest' evs' :
  advance (advance w rest evs) rest' evs' = advance w rest' (evs ++ evs').
Proof. unfold advance. cbn. rewrite app_assoc. reflexivity. Qed.

(** The loop only ever appends to the record and consumes reads from the
    front. *)
Lemma ep0Loop_advances k : forall buf w,
  exists evs rest,
    (ep0Loop k buf w).1 = advance w rest evs /\
    exists used, pending w = used ++ rest.
Proof.
  induction k as [|k IH]; intros buf w.
  - exists [], (pending w). split; [|exists []; reflexivity].
    cbn. unfold advance. rewrite app_nil_r. destruct w; reflexivity.
  - destruct (pending w) as [|r rest] eqn:Hp.
    + rewrite (ep0Loop_halt _ _ _ _ _ (run_blocked buf w Hp)).
      exists [], []. split; [|exists []; reflexivity].
      cbn. unfold advance. rewrite app_nil_r, <- Hp. destruct w; reflexivity.
    + destruct (pass_cases buf w r rest Hp)
        as [[_ Hrun]|[[_ (evs & _ & Hrun)]|[_ [_ (msg & Hrun)]]]].
      * rewrite (ep0Loop_return _ _ _ _ Hrun).
        eexists _, rest. split; [reflexivity|]. exists [r]. reflexivity.
      * rewrite (ep0Loop_continue _ _ _ _ _ Hrun).
        destruct (IH (fill buf (rr_data r)) (advance w rest (read_event buf r :: evs)))
          as (evs' & rest' & Hw & used & Hused).
        rewrite Hw, advance_advance. eexists _, rest'. split; [reflexivity|].
        exists (r :: used). cbn in Hused. rewrite Hused. reflexivity.
      * rewrite (ep0Loop_halt _ _ _ _ _ Hrun).
        eexists _, rest. split; [reflexivity|]. exists [r]. reflexivity.
Qed.

(** A pass that starts with a read to come records that read first. *)
Lemma ep0Loop_reads_first k buf w r rest :
  pending w = r :: rest ->
  exists evs, trace (ep0Loop (S k) buf w).1 = trace w ++ read_event buf r :: evs.
Proof.
  intros Hp.
  destruct (pass_cases buf w r rest Hp)
    as [[_ Hrun]|[[_ (evs & _ & Hrun)]|[_ [_ (msg & Hrun)]]]].
  - rewrite (ep0Loop_return _ _ _ _ Hrun). exists []. reflexivity.
  - rewrite (ep0Loop_continue _ _ _ _ _ Hrun).
    destruct (ep0Loop_advances k (fill buf (rr_data r))
                (advance w rest (read_event buf r :: evs)))
      as (evs' & rest' & Hw & _).
    rewrite Hw. cbn. rewrite <- app_assoc. eexists. reflexivity.
  - rewrite (ep0Loop_halt _ _ _ _ _ Hrun). exists []. reflexivity.
Qed.

(** *** Leaving the loop *)

Lemma loop_runs_to_eof pre : forall buf w r rest k,
  8 < evSize ->
  pending w = pre ++ r :: rest ->
  Forall (fun x => is_eof x = false) pre ->
  is_eof r = true ->
  (length pre < k)%nat ->
  exists evs buf',
    ep0Loop k buf w = (advance w rest (evs ++ [read_event buf' r]), Returned).
Proof.
  induction pre as [|p pre IH]; intros buf w r rest k Hsz Hp Hpre Hr Hk;
    (destruct k as [|k]; [cbn in Hk; lia|]).
  - destruct (pass_cases buf w r rest Hp)
      as [[_ Hrun]|[[Hne _]|[Hne _]]]; try congruence.
    rewrite (ep0Loop_return _ _ _ _ Hrun). exists [], buf. reflexivity.
  - apply Forall_cons in Hpre as [Hp0 Hpre].
    destruct (pass_cases buf w p (pre ++ r :: rest) Hp)
      as [[He _]|[[_ (evs & _ & Hrun)]|[_ [Hsmall _]]]]; [congruence| |lia].
    rewrite (ep0Loop_continue _ _ _ _ _ Hrun).
    destruct (IH (fill buf (rr_data p))
                (advance w (pre ++ r :: rest) (read_event buf p :: evs))
                r rest k Hsz eq_refl Hpre Hr ltac:(cbn in Hk; lia))
      as (evs' & buf' & Hloop).
    rewrite Hloop, advance_advance.
    exists ((read_event buf p :: evs) ++ evs'), buf'.
    rewrite <- app_assoc. reflexivity.
Qed.

Lemma loop_waits_without_eof l : forall buf w k,
  8 < evSize ->
  pending w = l ->
  Forall (fun x => is_eof x = false) l ->
  (length l < k)%nat ->
  exists w', ep0Loop k buf w = (w', Stopped BlockedInRead).
Proof.
  induction l as [|p l IH]; intros buf w k Hsz Hp Hl Hk;
    (destruct k as [|k]; [cbn in Hk; lia|]).
  - rewrite (ep0Loop_halt _ _ _ _ _ (run_blocked buf w Hp)). eexists. reflexivity.
  - apply Forall_cons in Hl as [Hp0 Hl].
    destruct (pass_cases buf w p l Hp)
      as [[He _]|[[_ (evs & _ & Hrun)]|[_ [Hsmall _]]]]; [congruence| |lia].
    rewrite (ep0Loop_continue _ _ _ _ _ Hrun).
    apply IH; [assumption|reflexivity|assumption|cbn in Hk; lia].
Qed.

Lemma loop_returns_only_on_eof k : forall buf w w',
  ep0Loop k buf w = (w', Returned) ->
  exists pre r rest evs buf',
    pending w = pre ++ r :: rest /\
    Forall (fun x => is_eof x = false) pre /\
    is_eof r = true /\
    w' = advance w rest (evs ++ [read_event buf' r]).
Proof.
  induction k as [|k IH]; intros buf w w' Hloop; [discriminate|].
  destruct (pending w) as [|p l] eqn:Hp.
  { rewrite (ep0Loop_halt _ _ _ _ _ (run_blocked buf w Hp)) in Hloop. discriminate. }
  destruct (pass_cases buf w p l Hp)
    as [[He Hrun]|[[Hne (evs & _ & Hrun)]|[_ [_ (msg & Hrun)]]]].
  - rewrite (ep0Loop_return _ _ _ _ Hrun) in Hloop.
    exists [], p, l, [], buf. split; [reflexivity|]. split; [constructor|]. split; [assumption|].
    injection Hloop as <-. reflexivity.
  - rewrite (ep0Loop_continue _ _ _ _ _ Hrun) in Hloop.
    destruct (IH _ _ _ Hloop) as (pre & r & rest & evs' & buf' & Hp' & Hpre & Hr & Hw').
    cbn in Hp'. subst l.
    exists (p :: pre), r, rest, ((read_event buf p :: evs) ++ evs'), buf'.
    split; [reflexivity|]. split; [constructor; assumption|]. split; [assumption|].
    rewrite Hw', advance_advance, <- app_assoc. reflexivity.
  - rewrite (ep0Loop_halt _ _ _ _ _ Hrun) in Hloop. discriminate.
Qed.

(** One pass more than there are reads to come is enough: the run is
    then over, returned or stopped, not cut short at the top of the
    [for]. *)
Lemma ep0Loop_enough_passes l : forall buf w k,
  pending w = l -> (length l < k)%nat ->
  (ep0Loop k buf w).2 = Returned \/ exists h, (ep0Loop k buf w).2 = Stopped h.
Proof.
  induction l as [|p l IH]; intros buf w k Hp Hk;
    (destruct k as [|k]; [cbn in Hk; lia|]).
  - rewrite (ep0Loop_halt _ _ _ _ _ (run_blocked buf w Hp)). right. eexists. reflexivity.
  - destruct (pass_cases buf w p l Hp)
      as [[_ Hrun]|[[_ (evs & _ & Hrun)]|[_ [_ (msg & Hrun)]]]].
    + rewrite (ep0Loop_return _ _ _ _ Hrun). left. reflexivity.
    + rewrite (ep0Loop_continue _ _ _ _ _ Hrun).
      apply IH; [reflexivity|cbn in Hk; lia].
    + rewrite (ep0Loop_halt _ _ _ _ _ Hrun). right. eexists. reflexivity.
Qed.

Lemma drainEP0Events_ends w :
  (drainEP0Events w).2 = Returned \/ exists h, (drainEP0Events w).2 = Stopped h.
Proof. unfold drainEP0Events. eapply ep0Loop_enough_passes; [reflexivity|lia]. Qed.

(** *** Going round on failed reads *)

Lemma is_failure_inv r :
  is_failure r = true -> exists e, rr_err r = Some e /\ errors_Is_EOF e = false.
Proof.
  unfold is_failure. destruct (rr_err r) as [e|]; [|discriminate].
  intros H. exists e. split; [reflexivity|]. destruct (errors_Is_EOF e); [discriminate|reflexivity].
Qed.

Lemma read_event_length buf buf' r :
  length buf' = length buf -> read_event buf' r = read_event buf r.
Proof. intros H. unfold read_event, read_n. rewrite H. reflexivity. Qed.

Lemma failed_pass_events_length buf buf' r :
  length buf' = length buf -> failed_pass_events buf' r = failed_pass_events buf r.
Proof. intros H. unfold failed_pass_events. rewrite (read_event_length _ _ _ H). reflexivity. Qed.

Lemma loop_retries fails : forall buf w rest k,
  pending w = fails ++ rest ->
  Forall (fun r => is_failure r = true) fails ->
  exists buf',
    length buf' = length buf /\
    ep0Loop (length fails + k) buf w =
      ep0Loop k buf' (advance w rest (flat_map (failed_pass_events buf) fails)).
Proof.
  induction fails as [|f fails IH]; intros buf w rest k Hp Hf.
  - exists buf. split; [reflexivity|]. cbn.
    unfold advance. rewrite app_nil_r. cbn in Hp. rewrite <- Hp. destruct w; reflexivity.
  - apply Forall_cons in Hf as [Hf0 Hf].
    destruct (is_failure_inv f Hf0) as (e & He & Hne).
    pose proof (run_failure buf w f (fails ++ rest) e Hp He Hne) as Hrun.
    cbn [length Nat.add flat_map]. rewrite (ep0Loop_continue _ _ _ _ _ Hrun).
    destruct (IH (fill buf (rr_data f))
                (advance w (fails ++ rest) (read_event buf f :: retry_events e))
                rest k eq_refl Hf)
      as (buf' & Hlen & Hloop).
    rewrite fill_length in Hlen.
    rewrite (flat_map_ext _ (failed_pass_events buf)) in Hloop
      by (intros r; apply failed_pass_events_length, fill_length).
    exists buf'. split; [exact Hlen|].
    rewrite Hloop, advance_advance.
    unfold failed_pass_events at 2. rewrite He. reflexivity.
Qed.

Lemma retry_projections buf fails :
  Forall (fun r => is_failure r = true) fails ->
  logs (flat_map (failed_pass_events buf) fails) =
    replicate (length fails) (Warn, "ep0 read events failed; retrying"%string) /\
  sleeps (flat_map (failed_pass_events buf) fails) =
    replicate (length fails) ep0ReadRetryDelay /\
  writes (flat_map (failed_pass_events buf) fails) = [].
Proof.
  induction 1 as [|f fails Hf0 _ (IHl & IHs & IHw)]; [repeat split|].
  destruct (is_failure_inv f Hf0) as (e & He & _).
  cbn [flat_map length replicate]. unfold failed_pass_events at 1 3 5. rewrite He.
  unfold logs, sleeps, writes in *. rewrite !omap_app, IHl, IHs, IHw.
  repeat split.
Qed.

Lemma goes_round_intro buf w r rest evs buf' :
  pending w = r :: rest ->
  run (iteration buf) w = (advance w rest evs, Done (Continue buf')) ->
  goes_round buf w evs buf'.
Proof.
  intros Hp Hrun. exists r, rest. split; [exact Hp|]. split; [exact Hrun|].
  split.
  - intros k. apply ep0Loop_continue. exact Hrun.
  - intros k r' rest' ->.
    rewrite (ep0Loop_continue _ _ _ _ _ Hrun).
    destruct (ep0Loop_reads_first k buf' (advance w (r' :: rest') evs) r' rest' eq_refl)
      as (later & Hlater).
    exists later. rewrite Hlater. cbn. rewrite <- app_assoc. reflexivity.
Qed.

Lemma writes_write_events data fate msg : writes (write_events data fate msg) = [data].
Proof. unfold write_events. destruct fate; reflexivity. Qed.

Lemma reads_write_events data fate msg : reads (write_events data fate msg) = [].
Proof. unfold write_events. destruct fate; reflexivity. Qed.

Lemma loads_write_events data fate msg : loads (write_events data fate msg) = [].
Proof. unfold write_events. destruct fate; reflexivity. Qed.


(** ** The codec *)

Lemma LittleEndian_Uint16_value lo hi :
  is_byte lo -> is_byte hi ->
  LittleEndian_Uint16 lo hi = lo + 256 * hi /\ is_uint16 (LittleEndian_Uint16 lo hi).
Proof.
  intros Hlo Hhi. unfold LittleEndian_Uint16, is_byte, is_uint16 in *.
  assert (Hdisj : Z.land lo (Z.shiftl hi 8) = 0).
  { apply Z.bits_inj'. intros n Hn. rewrite Z.land_spec, Z.bits_0.
    destruct (Z.lt_ge_cases n 8) as [Hlt|Hge].
    - rewrite (Z.shiftl_spec_low hi 8 n Hlt). apply andb_false_r.
    - assert (Hbit : Z.testbit lo n = false).
      { destruct (Z.eq_dec lo 0) as [->|Hnz]; [apply Z.bits_0|].
        apply Z.bits_above_log2; [lia|].
        apply Z.log2_lt_pow2; [lia|].
        apply Z.lt_le_trans with (2 ^ 8); [cbn; lia|].
        apply Z.pow_le_mono_r; lia. }
      rewrite Hbit. reflexivity. }
  rewrite <- Z.lxor_lor by exact Hdisj.
  rewrite <- Z.add_nocarry_lxor by exact Hdisj.
  rewrite Z.shiftl_mul_pow2 by lia. change (2 ^ 8) with 256. lia.
Qed.

(** C3.  For every 8-byte input the codec's packet has byte 0 as its
    request type, byte 1 as its request code and, as its length, the
    little-endian u16 of bytes 6 and 7, that is byte 6 plus 256 times
    byte 7 (so 0x05, 0x00 decode to 5). *)
Theorem parseCtrlReq_decodes_fixed_offsets b0 b1 b2 b3 b4 b5 b6 b7 :
  Forall is_byte [b0; b1; b2; b3; b4; b5; b6; b7] ->
  let req := parseCtrlReq [b0; b1; b2; b3; b4; b5; b6; b7] in
  bmRequestType req = b0 /\
  bRequest req = b1 /\
  wLength req = b6 + 256 * b7 /\
  is_uint16 (wLength req) /\
  (b6 = 5 -> b7 = 0 -> wLength req = 5).
Proof.
  intros Hb req.
  assert (is_byte b6 /\ is_byte b7) as [H6 H7].
  { do 6 (apply Forall_cons in Hb as [_ Hb]).
    apply Forall_cons in Hb as [H6 Hb]. apply Forall_cons in Hb as [H7 _].
    split; assumption. }
  destruct (LittleEndian_Uint16_value b6 b7 H6 H7) as [Hval Hrng].
  subst req. unfold parseCtrlReq. cbn.
  split; [reflexivity|]. split; [reflexivity|]. split; [exact Hval|].
  split; [exact Hrng|]. intros -> ->. rewrite Hval. reflexivity.
Qed.

(** ** The claims about the loop *)

(** C1.  A whole SETUP frame whose decoded request is not the vendor
    ready request makes the pass record the read, the two log lines and
    one write of no bytes (plus an error line if that write fails); the
    loop then goes round, so the write is the only one and comes before
    the next read. *)
Theorem unrecognized_setup_gets_one_zero_length_write buf w r rest :
  pending w = r :: rest ->
  setup_frame buf r ->
  ~ is_ready_request (request_of buf r) ->
  exists fate,
    let evs :=
      read_event buf r :: parsed_event (request_of buf r) ::
      stall_warning (request_of buf r) ::
      write_events [] fate "ep0 write ZLP/STALL failed" in
    goes_round buf w evs (frame buf r) /\
    writes evs = [[]] /\
    reads evs = [(read_n buf (rr_data r), None)].
Proof.
  intros Hp [[He Hn] H8] Hreq. exists (wfate w (now w + 3)%nat). cbv zeta.
  split; [|split].
  - eapply goes_round_intro; [exact Hp|]. apply run_stall; assumption.
  - unfold read_event, writes. cbn. apply (writes_write_events [] _ _).
  - unfold read_event, reads. rewrite He. cbn.
    f_equal. apply (reads_write_events [] _ _).
Qed.

(** C2.  For a recognized ready request asking for L bytes (a u16), the
    one write of the pass carries min(L, 8) bytes, and they are the first
    min(L, 8) of: "TZSG", the protocol version as two little-endian bytes,
    the readiness byte (the loaded cell converted to a byte), one zero
    byte. *)
Theorem ready_reply_is_prefix_of_fixed_layout buf w r rest :
  pending w = r :: rest ->
  setup_frame buf r ->
  is_ready_request (request_of buf r) ->
  is_uint16 (wLength (request_of buf r)) ->
  is_uint16 protoVersion ->
  exists loaded fate data,
    let L := wLength (request_of buf r) in
    let evs :=
      read_event buf r :: parsed_event (request_of buf r) :: ELoad loaded ::
      write_events data fate "ep0 write vendor reply" in
    loaded = cell w (now w + 2)%nat /\
    goes_round buf w evs (frame buf r) /\
    writes evs = [data] /\
    Z.of_nat (length data) = Z.min L 8 /\
    data = take (Z.to_nat (Z.min L 8))
             (bytes_of_string "TZSG" ++
              [protoVersion mod 256; protoVersion / 256] ++
              [byte loaded] ++ [0]).
Proof.
  intros Hp [[He Hn] H8] Hreq HL Hpv.
  exists (cell w (now w + 2)%nat), (wfate w (now w + 3)%nat).
  eexists. cbv zeta. split; [reflexivity|]. split; [|split; [|split]].
  - eapply goes_round_intro; [exact Hp|]. apply run_ready; assumption.
  - unfold read_event, writes. cbn. apply (writes_write_events _ _ _).
  - apply vendorReplyData_length. destruct HL; assumption.
  - rewrite vendorReplyData_take, vendorReply_bytes.
    destruct (PutUint16_little_endian Hpv) as (-> & -> & _). reflexivity.
Qed.

Lemma first_eof l :
  Exists (fun r => is_eof r = true) l ->
  exists pre r rest,
    l = pre ++ r :: rest /\ Forall (fun x => is_eof x = false) pre /\ is_eof r = true.
Proof.
  induction l as [|a l IH]; intros H; [inversion H|].
  destruct (is_eof a) eqn:Ha.
  - exists [], a, l. split; [reflexivity|]. split; [constructor|assumption].
  - apply Exists_cons in H as [H|H]; [congruence|].
    destruct (IH H) as (pre & r & rest & -> & Hpre & Hr).
    exists (a :: pre), r, rest. split; [reflexivity|].
    split; [constructor; assumption|assumption].
Qed.

(** C4.  With an event record that has a byte 8: a pass whose read
    returns end-of-stream returns from the loop having recorded that read
    and nothing else, so no write; [drainEP0Events] returns exactly when
    some read to come returns end-of-stream; whenever the loop returns,
    the last thing recorded is the first end-of-stream read; and with no
    end-of-stream to come the run ends blocked in [Read], neither returned
    nor panicked. *)
Theorem eof_is_the_only_way_out w :
  8 < evSize ->
  (forall buf r rest k,
     pending w = r :: rest -> is_eof r = true ->
     ep0Loop (S k) buf w = (advance w rest [read_event buf r], Returned) /\
     writes [read_event buf r] = []) /\
  ((exists w', drainEP0Events w = (w', Returned)) <->
   Exists (fun r => is_eof r = true) (pending w)) /\
  (forall k buf w',
     ep0Loop k buf w = (w', Returned) ->
     exists pre r rest evs buf',
       pending w = pre ++ r :: rest /\
       Forall (fun x => is_eof x = false) pre /\
       is_eof r = true /\
       w' = advance w rest (evs ++ [read_event buf' r])) /\
  (Forall (fun r => is_eof r = false) (pending w) ->
   exists w', drainEP0Events w = (w', Stopped BlockedInRead)).
Proof.
  intros Hsz. split; [|split; [|split]].
  - intros buf r rest k Hp Hr. split; [|reflexivity].
    destruct (pass_cases buf w r rest Hp) as [[_ Hrun]|[[Hne _]|[Hne _]]];
      try congruence.
    apply ep0Loop_return. exact Hrun.
  - split.
    + intros (w' & Hret).
      destruct (loop_returns_only_on_eof _ _ _ _ Hret)
        as (pre & r & rest & _ & _ & -> & _ & Hr & _).
      apply Exists_app. right. apply Exists_cons. left. exact Hr.
    + intros Hex. destruct (first_eof _ Hex) as (pre & r & rest & Hp & Hpre & Hr).
      unfold drainEP0Events.
      destruct (loop_runs_to_eof pre (replicate (Z.to_nat evSize) 0) w r rest
                  (S (length (pending w))) Hsz Hp Hpre Hr) as (evs & buf' & Hloop).
      { rewrite Hp, length_app. cbn. lia. }
      eexists. exact Hloop.
  - intros k buf w' Hret. eapply loop_returns_only_on_eof. exact Hret.
  - intros Hno. unfold drainEP0Events.
    eapply loop_waits_without_eof; [exact Hsz|reflexivity|exact Hno|lia].
Qed.

(** C5.  Any number of consecutive reads that fail with something other
    than end-of-stream leave the loop at the top of the [for]: it has not
    returned, and what it records next is the next read, if one is to
    come.  Each failed read recorded the read, then the warning, then a
    sleep of [ep0ReadRetryDelay], which is one second in nanoseconds; no
    write was issued. *)
Theorem failed_reads_are_retried_without_end buf w fails rest k :
  pending w = fails ++ rest ->
  Forall (fun r => is_failure r = true) fails ->
  let evs := flat_map (failed_pass_events buf) fails in
  (exists buf',
     length buf' = length buf /\
     ep0Loop (length fails + k) buf w = ep0Loop k buf' (advance w rest evs)) /\
  (forall r' rest', rest = r' :: rest' ->
     exists later,
       trace (ep0Loop (length fails + S k) buf w).1 =
         trace w ++ evs ++ read_event buf r' :: later) /\
  logs evs = replicate (length fails) (Warn, "ep0 read events failed; retrying"%string) /\
  sleeps evs = replicate (length fails) ep0ReadRetryDelay /\
  ep0ReadRetryDelay = 1000000000 /\
  writes evs = [].
Proof.
  intros Hp Hf. cbv zeta.
  destruct (retry_projections buf fails Hf) as (Hlg & Hsl & Hwr).
  split; [apply loop_retries; assumption|].
  split; [|repeat split; assumption].
  intros r' rest' ->.
  destruct (loop_retries fails buf w (r' :: rest') (S k) Hp Hf) as (buf' & Hlen & Hloop).
  rewrite Hloop.
  destruct (ep0Loop_reads_first k buf' (advance w (r' :: rest')
              (flat_map (failed_pass_events buf) fails)) r' rest' eq_refl)
    as (later & Hlater).
  exists later. rewrite Hlater, (read_event_length _ _ _ Hlen). cbn.
  rewrite <- app_assoc. reflexivity.
Qed.

(** C6.  A whole frame whose byte 8 is not the SETUP event type makes the
    pass record its read and nothing else, so no write, and the loop goes
    round to the next read. *)
Theorem other_event_types_are_dropped buf w r rest t :
  pending w = r :: rest ->
  full_frame buf r ->
  frame buf r !! 8%nat = Some t ->
  t <> evTypeSetup ->
  goes_round buf w [read_event buf r] (frame buf r) /\
  writes [read_event buf r] = [].
Proof.
  intros Hp [He Hn] H8 Ht. split; [|reflexivity].
  eapply goes_round_intro; [exact Hp|]. eapply run_other_event; eassumption.
Qed.

(** C7.  A read that succeeds with fewer than [evSize] bytes makes the
    pass record the read and the too-short warning and nothing else: no
    decoding (no "parsed" line, no load of the cell), no write; the loop
    goes round to the next read.  The partial frame is gone for good: in
    the loop's buffer of [evSize] bytes the next whole frame is made of
    the bytes of its own read alone. *)
Theorem short_reads_are_logged_and_dropped buf w r rest :
  pending w = r :: rest ->
  rr_err r = None ->
  read_n buf (rr_data r) < evSize ->
  let evs := [read_event buf r; short_warning (read_n buf (rr_data r))] in
  goes_round buf w evs (frame buf r) /\
  logs evs = [(Warn, "ep0 read event too short"%string)] /\
  loads evs = [] /\
  writes evs = [] /\
  (Z.of_nat (length buf) = evSize ->
   forall r', full_frame (frame buf r) r' ->
     frame (frame buf r) r' = take (length buf) (rr_data r')).
Proof.
  intros Hp He Hn. cbv zeta. split; [|repeat split].
  - eapply goes_round_intro; [exact Hp|]. apply run_short; assumption.
  - intros Hlen r' Hfull.
    rewrite <- (fill_length buf (rr_data r)). apply whole_frame_overwrites; [|exact Hfull].
    unfold frame. rewrite fill_length. exact Hlen.
Qed.

(** C8, as the code has it.  The cell is a 32-bit word and the reply
    carries [byte(ready.Load())]: offset 6 of the reply array holds the
    loaded value modulo 256, the value it was loaded as at the instant of
    the load.  That is the stored value itself exactly when the stored
    value is at most 255. *)
Theorem readiness_byte_is_low_byte_of_cell buf w r rest :
  pending w = r :: rest ->
  setup_frame buf r ->
  is_ready_request (request_of buf r) ->
  is_uint32 (cell w (now w + 2)%nat) ->
  let stored := cell w (now w + 2)%nat in
  exists fate,
    let evs :=
      read_event buf r :: parsed_event (request_of buf r) :: ELoad stored ::
      write_events
        (take (Z.to_nat (Z.min (wLength (request_of buf r)) 8)) (vendorReply stored))
        fate "ep0 write vendor reply" in
    goes_round buf w evs (frame buf r) /\
    loads evs = [stored] /\
    vendorReply stored !! 6%nat = Some (stored mod 256) /\
    (vendorReply stored !! 6%nat = Some stored <-> stored <= 255).
Proof.
  intros Hp [[He Hn] H8] Hreq [Hlo Hhi]. cbv zeta.
  exists (wfate w (now w + 3)%nat). split; [|split; [|split]].
  - eapply goes_round_intro; [exact Hp|].
    rewrite <- vendorReplyData_take. apply run_ready; assumption.
  - unfold read_event, loads, write_events. destruct (wfate w _); reflexivity.
  - rewrite vendorReply_bytes. cbn. rewrite byte_mod. reflexivity.
  - rewrite vendorReply_bytes. cbn. rewrite byte_mod. split.
    + intros [= Heq].
      pose proof (Z.mod_pos_bound (cell w (now w + 2)%nat) 256). lia.
    + intros Hle. rewrite Z.mod_small by lia. reflexivity.
Qed.

(** C9.  What is written for a ready request is a function of the
    requested length and the loaded readiness value alone: two passes, in
    whatever surroundings and with whatever else in their buffers, that
    see the same length and load the same value write the same bytes,
    namely [vendorReplyData] of the two. *)
Theorem reply_depends_only_on_length_and_readiness
    buf1 w1 r1 rest1 buf2 w2 r2 rest2 :
  pending w1 = r1 :: rest1 ->
  setup_frame buf1 r1 ->
  is_ready_request (request_of buf1 r1) ->
  pending w2 = r2 :: rest2 ->
  setup_frame buf2 r2 ->
  is_ready_request (request_of buf2 r2) ->
  wLength (request_of buf1 r1) = wLength (request_of buf2 r2) ->
  cell w1 (now w1 + 2)%nat = cell w2 (now w2 + 2)%nat ->
  exists data fate1 fate2,
    data = vendorReplyData (cell w1 (now w1 + 2)%nat) (wLength (request_of buf1 r1)) /\
    goes_round buf1 w1
      (read_event buf1 r1 :: parsed_event (request_of buf1 r1) ::
       ELoad (cell w1 (now w1 + 2)%nat) ::
       write_events data fate1 "ep0 write vendor reply")
      (frame buf1 r1) /\
    goes_round buf2 w2
      (read_event buf2 r2 :: parsed_event (request_of buf2 r2) ::
       ELoad (cell w2 (now w2 + 2)%nat) ::
       write_events data fate2 "ep0 write vendor reply")
      (frame buf2 r2).
Proof.
  intros Hp1 [[He1 Hn1] H81] Hreq1 Hp2 [[He2 Hn2] H82] Hreq2 HL Hcell.
  eexists. exists (wfate w1 (now w1 + 3)%nat), (wfate w2 (now w2 + 3)%nat).
  split; [reflexivity|]. split.
  - eapply goes_round_intro; [exact Hp1|]. apply run_ready; assumption.
  - eapply goes_round_intro; [exact Hp2|].
    rewrite HL, Hcell. apply run_ready; assumption.
Qed.

(** C10.  A ready request that asks for 0 bytes is answered with a write
    of no bytes, and so is a request the loop does not serve: the two
    passes hand the file the same (empty) data, though one passes
    [reply[:0]] and the other [nil]. *)
Theorem zero_length_reply_is_written_like_a_stall
    buf1 w1 r1 rest1 buf2 w2 r2 rest2 :
  pending w1 = r1 :: rest1 ->
  setup_frame buf1 r1 ->
  is_ready_request (request_of buf1 r1) ->
  wLength (request_of buf1 r1) = 0 ->
  pending w2 = r2 :: rest2 ->
  setup_frame buf2 r2 ->
  ~ is_ready_request (request_of buf2 r2) ->
  exists loaded fate1 fate2,
    let evs1 :=
      read_event buf1 r1 :: parsed_event (request_of buf1 r1) :: ELoad loaded ::
      write_events [] fate1 "ep0 write vendor reply" in
    let evs2 :=
      read_event buf2 r2 :: parsed_event (request_of buf2 r2) ::
      stall_warning (request_of buf2 r2) ::
      write_events [] fate2 "ep0 write ZLP/STALL failed" in
    goes_round buf1 w1 evs1 (frame buf1 r1) /\
    goes_round buf2 w2 evs2 (frame buf2 r2) /\
    writes evs1 = [[]] /\
    writes evs2 = [[]] /\
    slice_bytes (slice_of (vendorReplyData loaded 0)) = slice_bytes slice_nil.
Proof.
  intros Hp1 [[He1 Hn1] H81] Hreq1 HL Hp2 [[He2 Hn2] H82] Hreq2.
  exists (cell w1 (now w1 + 2)%nat), (wfate w1 (now w1 + 3)%nat), (wfate w2 (now w2 + 3)%nat).
  cbv zeta. split; [|split; [|split; [|split]]].
  - eapply goes_round_intro; [exact Hp1|].
    change [] with (vendorReplyData (cell w1 (now w1 + 2)%nat) 0) at 1.
    rewrite <- HL. apply run_ready; assumption.
  - eapply goes_round_intro; [exact Hp2|]. apply run_stall; assumption.
  - unfold read_event, writes. cbn. apply (writes_write_events [] _ _).
  - unfold read_event, writes. cbn. apply (writes_write_events [] _ _).
  - reflexivity.
Qed.

End RegistrarFacts.

(** * The sample build *)

#[local] Existing Instance sample_build.

Lemma foreign_frame_is_setup : setup_frame fresh_buf foreign_frame.
Proof. split; [split; [reflexivity | vm_compute; discriminate] | reflexivity]. Defined.

Lemma foreign_frame_not_ready : ~ is_ready_request (request_of fresh_buf foreign_frame).
Proof. intros [H _]. vm_compute in H. discriminate H. Defined.

Lemma ready_frame_is_setup lo hi : setup_frame fresh_buf (ready_frame lo hi).
Proof. split; [split; [reflexivity | vm_compute; discriminate] | reflexivity]. Defined.

Lemma ready_frame_is_ready lo hi : is_ready_request (request_of fresh_buf (ready_frame lo hi)).
Proof. split; reflexivity. Defined.

Lemma parseCtrlReq_witness :
  Forall is_byte [192; 1; 0; 0; 0; 0; 5; 0] /\
  bmRequestType (parseCtrlReq [192; 1; 0; 0; 0; 0; 5; 0]) = 192 /\
  bRequest (parseCtrlReq [192; 1; 0; 0; 0; 0; 5; 0]) = 1 /\
  wLength (parseCtrlReq [192; 1; 0; 0; 0; 0; 5; 0]) = 5 + 256 * 0 /\
  is_uint16 (wLength (parseCtrlReq [192; 1; 0; 0; 0; 0; 5; 0])) /\
  (5 = 5 -> 0 = 0 -> wLength (parseCtrlReq [192; 1; 0; 0; 0; 0; 5; 0]) = 5).
Proof.
  assert (Hb : Forall is_byte [192; 1; 0; 0; 0; 0; 5; 0])
    by (repeat constructor; unfold is_byte; lia).
  split; [exact Hb|].
  exact (parseCtrlReq_decodes_fixed_offsets 192 1 0 0 0 0 5 0 Hb).
Defined.

Lemma unrecognized_setup_witness :
  pending (quiet_world [foreign_frame; eof_read] 1) = [foreign_frame; eof_read] /\
  setup_frame fresh_buf foreign_frame /\
  ~ is_ready_request (request_of fresh_buf foreign_frame) /\
  exists fate,
    let evs :=
      read_event fresh_buf foreign_frame ::
      parsed_event (request_of fresh_buf foreign_frame) ::
      stall_warning (request_of fresh_buf foreign_frame) ::
      write_events [] fate "ep0 write ZLP/STALL failed" in
    goes_round fresh_buf (quiet_world [foreign_frame; eof_read] 1) evs
      (frame fresh_buf foreign_frame) /\
    writes evs = [[]] /\
    reads evs = [(read_n fresh_buf (rr_data foreign_frame), None)].
Proof.
  split; [reflexivity|].
  split; [exact foreign_frame_is_setup|].
  split; [exact foreign_frame_not_ready|].
  exact (unrecognized_setup_gets_one_zero_length_write
           fresh_buf (quiet_world [foreign_frame; eof_read] 1) foreign_frame [eof_read]
           eq_refl foreign_frame_is_setup foreign_frame_not_ready).
Defined.

Lemma ready_reply_witness :
  pending (quiet_world [ready_frame 3 0] 1) = [ready_frame 3 0] /\
  setup_frame fresh_buf (ready_frame 3 0) /\
  is_ready_request (request_of fresh_buf (ready_frame 3 0)) /\
  is_uint16 (wLength (request_of fresh_buf (ready_frame 3 0))) /\
  is_uint16 protoVersion /\
  exists loaded fate data,
    let L := wLength (request_of fresh_buf (ready_frame 3 0)) in
    let evs :=
      read_event fresh_buf (ready_frame 3 0) ::
      parsed_event (request_of fresh_buf (ready_frame 3 0)) :: ELoad loaded ::
      write_events data fate "ep0 write vendor reply" in
    loaded = cell (quiet_world [ready_frame 3 0] 1) (now (quiet_world [ready_frame 3 0] 1) + 2)%nat /\
    goes_round fresh_buf (quiet_world [ready_frame 3 0] 1) evs
      (frame fresh_buf (ready_frame 3 0)) /\
    writes evs = [data] /\
    Z.of_nat (length data) = Z.min L 8 /\
    data = take (Z.to_nat (Z.min L 8))
             (bytes_of_string "TZSG" ++
              [protoVersion mod 256; protoVersion / 256] ++
              [byte loaded] ++ [0]).
Proof.
  assert (HL : is_uint16 (wLength (request_of fresh_buf (ready_frame 3 0))))
    by (vm_compute; split; [discriminate | reflexivity]).
  assert (Hpv : is_uint16 protoVersion)
    by (vm_compute; split; [discriminate | reflexivity]).
  split; [reflexivity|].
  split; [exact (ready_frame_is_setup 3 0)|].
  split; [exact (ready_frame_is_ready 3 0)|].
  split; [exact HL|]. split; [exact Hpv|].
  exact (ready_reply_is_prefix_of_fixed_layout
           fresh_buf (quiet_world [ready_frame 3 0] 1) (ready_frame 3 0) []
           eq_refl (ready_frame_is_setup 3 0) (ready_frame_is_ready 3 0) HL Hpv).
Defined.

Lemma eof_witness :
  8 < evSize /\
  (forall buf r rest k,
     pending (quiet_world [failed_read; eof_read; foreign_frame] 1) = r :: rest ->
     is_eof r = true ->
     ep0Loop (S k) buf (quiet_world [failed_read; eof_read; foreign_frame] 1) =
       (advance (quiet_world [failed_read; eof_read; foreign_frame] 1) rest
          [read_event buf r], Returned) /\
     writes [read_event buf r] = []) /\
  ((exists w', drainEP0Events (quiet_world [failed_read; eof_read; foreign_frame] 1) =
                 (w', Returned)) <->
   Exists (fun r => is_eof r = true)
     (pending (quiet_world [failed_read; eof_read; foreign_frame] 1))) /\
  (forall k buf w',
     ep0Loop k buf (quiet_world [failed_read; eof_read; foreign_frame] 1) = (w', Returned) ->
     exists pre r rest evs buf',
       pending (quiet_world [failed_read; eof_read; foreign_frame] 1) = pre ++ r :: rest /\
       Forall (fun x => is_eof x = false) pre /\
       is_eof r = true /\
       w' = advance (quiet_world [failed_read; eof_read; foreign_frame] 1) rest
              (evs ++ [read_event buf' r])) /\
  (Forall (fun r => is_eof r = false)
     (pending (quiet_world [failed_read; eof_read; foreign_frame] 1)) ->
   exists w', drainEP0Events (quiet_world [failed_read; eof_read; foreign_frame] 1) =
                (w', Stopped BlockedInRead)).
Proof.
  assert (Hsz : 8 < evSize) by reflexivity.
  split; [exact Hsz|].
  exact (eof_is_the_only_way_out
           (quiet_world [failed_read; eof_read; foreign_frame] 1) Hsz).
Defined.

Lemma failed_reads_witness :
  pending (quiet_world [failed_read; failed_read; failed_read; eof_read] 1) =
    [failed_read; failed_read; failed_read] ++ [eof_read] /\
  Forall (fun r => is_failure r = true) [failed_read; failed_read; failed_read] /\
  (exists buf',
     length buf' = length fresh_buf /\
     ep0Loop (length [failed_read; failed_read; failed_read] + 0) fresh_buf
       (quiet_world [failed_read; failed_read; failed_read; eof_read] 1) =
       ep0Loop 0 buf'
         (advance (quiet_world [failed_read; failed_read; failed_read; eof_read] 1)
            [eof_read]
            (flat_map (failed_pass_events fresh_buf)
               [failed_read; failed_read; failed_read]))) /\
  (forall r' rest', [eof_read] = r' :: rest' ->
     exists later,
       trace (ep0Loop (length [failed_read; failed_read; failed_read] + 1) fresh_buf
                (quiet_world [failed_read; failed_read; failed_read; eof_read] 1)).1 =
         trace (quiet_world [failed_read; failed_read; failed_read; eof_read] 1) ++
         flat_map (failed_pass_events fresh_buf) [failed_read; failed_read; failed_read] ++
         read_event fresh_buf r' :: later) /\
  logs (flat_map (failed_pass_events fresh_buf) [failed_read; failed_read; failed_read]) =
    replicate (length [failed_read; failed_read; failed_read])
      (Warn, "ep0 read events failed; retrying"%string) /\
  sleeps (flat_map (failed_pass_events fresh_buf) [failed_read; failed_read; failed_read]) =
    replicate (length [failed_read; failed_read; failed_read]) ep0ReadRetryDelay /\
  ep0ReadRetryDelay = 1000000000 /\
  writes (flat_map (failed_pass_events fresh_buf) [failed_read; failed_read; failed_read]) = [].
Proof.
  assert (Hf : Forall (fun r => is_failure r = true) [failed_read; failed_read; failed_read])
    by (repeat constructor).
  split; [reflexivity|]. split; [exact Hf|].
  exact (failed_reads_are_retried_without_end
           fresh_buf (quiet_world [failed_read; failed_read; failed_read; eof_read] 1)
           [failed_read; failed_read; failed_read] [eof_read] 0%nat eq_refl Hf).
Defined.

Lemma other_event_witness :
  pending (quiet_world [enable_frame; eof_read] 1) = [enable_frame; eof_read] /\
  full_frame fresh_buf enable_frame /\
  frame fresh_buf enable_frame !! 8%nat = Some 2 /\
  2 <> evTypeSetup /\
  goes_round fresh_buf (quiet_world [enable_frame; eof_read] 1)
    [read_event fresh_buf enable_frame] (frame fresh_buf enable_frame) /\
  writes [read_event fresh_buf enable_frame] = [].
Proof.
  assert (Hfull : full_frame fresh_buf enable_frame)
    by (split; [reflexivity | vm_compute; discriminate]).
  assert (Ht : 2 <> evTypeSetup) by (vm_compute; discriminate).
  split; [reflexivity|]. split; [exact Hfull|]. split; [reflexivity|]. split; [exact Ht|].
  exact (other_event_types_are_dropped
           fresh_buf (quiet_world [enable_frame; eof_read] 1) enable_frame [eof_read] 2
           eq_refl Hfull eq_refl Ht).
Defined.

Lemma short_read_witness :
  pending (quiet_world [short_read; eof_read] 1) = [short_read; eof_read] /\
  rr_err short_read = None /\
  read_n fresh_buf (rr_data short_read) < evSize /\
  goes_round fresh_buf (quiet_world [short_read; eof_read] 1)
    [read_event fresh_buf short_read; short_warning (read_n fresh_buf (rr_data short_read))]
    (frame fresh_buf short_read) /\
  logs [read_event fresh_buf short_read;
        short_warning (read_n fresh_buf (rr_data short_read))] =
    [(Warn, "ep0 read event too short"%string)] /\
  loads [read_event fresh_buf short_read;
         short_warning (read_n fresh_buf (rr_data short_read))] = [] /\
  writes [read_event fresh_buf short_read;
          short_warning (read_n fresh_buf (rr_data short_read))] = [] /\
  (Z.of_nat (length fresh_buf) = evSize ->
   forall r', full_frame (frame fresh_buf short_read) r' ->
     frame (frame fresh_buf short_read) r' = take (length fresh_buf) (rr_data r')).
Proof.
  assert (Hn : read_n fresh_buf (rr_data short_read) < evSize) by reflexivity.
  split; [reflexivity|]. split; [reflexivity|]. split; [exact Hn|].
  exact (short_reads_are_logged_and_dropped
           fresh_buf (quiet_world [short_read; eof_read] 1) short_read [eof_read]
           eq_refl eq_refl Hn).
Defined.

(** C8 as the claim states it fails once the cell holds more than a byte
    can: with 256 stored (nonzero, so ready) the loop loads 256 and writes
    a reply whose offset 6 is 0. *)
Lemma readiness_256_is_reported_as_0 :
  is_uint32 256 /\
  loads (trace (drainEP0Events (quiet_world [ready_frame 8 0] 256)).1) = [256] /\
  writes (trace (drainEP0Events (quiet_world [ready_frame 8 0] 256)).1) =
    [[84; 90; 83; 71; 1; 0; 0; 0]] /\
  vendorReply 256 !! 6%nat = Some 0 /\
  vendorReply 256 !! 6%nat <> Some 256.
Proof.
  split; [unfold is_uint32; lia|].
  split; [vm_compute; reflexivity|].
  split; [vm_compute; reflexivity|].
  split; [vm_compute; reflexivity|].
  vm_compute. discriminate.
Qed.

Lemma readiness_byte_witness :
  pending (quiet_world [ready_frame 8 0] 1) = [ready_frame 8 0] /\
  setup_frame fresh_buf (ready_frame 8 0) /\
  is_ready_request (request_of fresh_buf (ready_frame 8 0)) /\
  is_uint32 (cell (quiet_world [ready_frame 8 0] 1)
               (now (quiet_world [ready_frame 8 0] 1) + 2)%nat) /\
  exists fate,
    let evs :=
      read_event fresh_buf (ready_frame 8 0) ::
      parsed_event (request_of fresh_buf (ready_frame 8 0)) :: ELoad 1 ::
      write_events
        (take (Z.to_nat (Z.min (wLength (request_of fresh_buf (ready_frame 8 0))) 8))
           (vendorReply 1))
        fate "ep0 write vendor reply" in
    goes_round fresh_buf (quiet_world [ready_frame 8 0] 1) evs
      (frame fresh_buf (ready_frame 8 0)) /\
    loads evs = [1] /\
    vendorReply 1 !! 6%nat = Some (1 mod 256) /\
    (vendorReply 1 !! 6%nat = Some 1 <-> 1 <= 255).
Proof.
  assert (Hu : is_uint32 (cell (quiet_world [ready_frame 8 0] 1)
                            (now (quiet_world [ready_frame 8 0] 1) + 2)%nat))
    by (vm_compute; split; [discriminate | reflexivity]).
  split; [reflexivity|].
  split; [exact (ready_frame_is_setup 8 0)|].
  split; [exact (ready_frame_is_ready 8 0)|].
  split; [exact Hu|].
  exact (readiness_byte_is_low_byte_of_cell
           fresh_buf (quiet_world [ready_frame 8 0] 1) (ready_frame 8 0) []
           eq_refl (ready_frame_is_setup 8 0) (ready_frame_is_ready 8 0) Hu).
Defined.

Lemma stale_ready_frame_is_setup : setup_frame stale_buf (ready_frame 5 0).
Proof. split; [split; [reflexivity | vm_compute; discriminate] | reflexivity]. Defined.

Lemma stale_ready_frame_is_ready : is_ready_request (request_of stale_buf (ready_frame 5 0)).
Proof. split; reflexivity. Defined.

Lemma reply_function_witness :
  pending (quiet_world [ready_frame 5 0] 1) = [ready_frame 5 0] /\
  setup_frame fresh_buf (ready_frame 5 0) /\
  is_ready_request (request_of fresh_buf (ready_frame 5 0)) /\
  pending busy_world = [ready_frame 5 0; eof_read] /\
  setup_frame stale_buf (ready_frame 5 0) /\
  is_ready_request (request_of stale_buf (ready_frame 5 0)) /\
  wLength (request_of fresh_buf (ready_frame 5 0)) =
    wLength (request_of stale_buf (ready_frame 5 0)) /\
  cell (quiet_world [ready_frame 5 0] 1) (now (quiet_world [ready_frame 5 0] 1) + 2)%nat =
    cell busy_world (now busy_world + 2)%nat /\
  exists data fate1 fate2,
    data = vendorReplyData
             (cell (quiet_world [ready_frame 5 0] 1)
                (now (quiet_world [ready_frame 5 0] 1) + 2)%nat)
             (wLength (request_of fresh_buf (ready_frame 5 0))) /\
    goes_round fresh_buf (quiet_world [ready_frame 5 0] 1)
      (read_event fresh_buf (ready_frame 5 0) ::
       parsed_event (request_of fresh_buf (ready_frame 5 0)) ::
       ELoad (cell (quiet_world [ready_frame 5 0] 1)
                (now (quiet_world [ready_frame 5 0] 1) + 2)%nat) ::
       write_events data fate1 "ep0 write vendor reply")
      (frame fresh_buf (ready_frame 5 0)) /\
    goes_round stale_buf busy_world
      (read_event stale_buf (ready_frame 5 0) ::
       parsed_event (request_of stale_buf (ready_frame 5 0)) ::
       ELoad (cell busy_world (now busy_world + 2)%nat) ::
       write_events data fate2 "ep0 write vendor reply")
      (frame stale_buf (ready_frame 5 0)).
Proof.
  split; [reflexivity|].
  split; [exact (ready_frame_is_setup 5 0)|].
  split; [exact (ready_frame_is_ready 5 0)|].
  split; [reflexivity|].
  split; [exact stale_ready_frame_is_setup|].
  split; [exact stale_ready_frame_is_ready|].
  split; [reflexivity|]. split; [reflexivity|].
  exact (reply_depends_only_on_length_and_readiness
           fresh_buf (quiet_world [ready_frame 5 0] 1) (ready_frame 5 0) []
           stale_buf busy_world (ready_frame 5 0) [eof_read]
           eq_refl (ready_frame_is_setup 5 0) (ready_frame_is_ready 5 0)
           eq_refl stale_ready_frame_is_setup stale_ready_frame_is_ready
           eq_refl eq_refl).
Defined.

Lemma zero_length_reply_witness :
  pending (quiet_world [ready_frame 0 0] 1) = [ready_frame 0 0] /\
  setup_frame fresh_buf (ready_frame 0 0) /\
  is_ready_request (request_of fresh_buf (ready_frame 0 0)) /\
  wLength (request_of fresh_buf (ready_frame 0 0)) = 0 /\
  pending (quiet_world [foreign_frame] 1) = [foreign_frame] /\
  setup_frame fresh_buf foreign_frame /\
  ~ is_ready_request (request_of fresh_buf foreign_frame) /\
  exists loaded fate1 fate2,
    let evs1 :=
      read_event fresh_buf (ready_frame 0 0) ::
      parsed_event (request_of fresh_buf (ready_frame 0 0)) :: ELoad loaded ::
      write_events [] fate1 "ep0 write vendor reply" in
    let evs2 :=
      read_event fresh_buf foreign_frame ::
      parsed_event (request_of fresh_buf foreign_frame) ::
      stall_warning (request_of fresh_buf foreign_frame) ::
      write_events [] fate2 "ep0 write ZLP/STALL failed" in
    goes_round fresh_buf (quiet_world [ready_frame 0 0] 1) evs1
      (frame fresh_buf (ready_frame 0 0)) /\
    goes_round fresh_buf (quiet_world [foreign_frame] 1) evs2
      (frame fresh_buf foreign_frame) /\
    writes evs1 = [[]] /\
    writes evs2 = [[]] /\
    slice_bytes (slice_of (vendorReplyData loaded 0)) = slice_bytes slice_nil.
Proof.
  split; [reflexivity|].
  split; [exact (ready_frame_is_setup 0 0)|].
  split; [exact (ready_frame_is_ready 0 0)|].
  split; [reflexivity|]. split; [reflexivity|].
  split; [exact foreign_frame_is_setup|].
  split; [exact foreign_frame_not_ready|].
  exact (zero_length_reply_is_written_like_a_stall
           fresh_buf (quiet_world [ready_frame 0 0] 1) (ready_frame 0 0) []
           fresh_buf (quiet_world [foreign_frame] 1) foreign_frame []
           eq_refl (ready_frame_is_setup 0 0) (ready_frame_is_ready 0 0) eq_refl
           eq_refl foreign_frame_is_setup foreign_frame_not_ready).
Defined.

(** ** Whole runs *)

(** A ready request for 3 bytes with the cell at 1: the first three bytes
    of the tag are written. *)
Example run_three_byte_request :
  writes (trace (drainEP0Events (quiet_world [ready_frame 3 0] 1)).1) = [[84; 90; 83]].
Proof. vm_compute. reflexivity. Qed.

(** A failed read and then end-of-stream: one sleep of a second, no
    write, and the loop has returned. *)
Example run_failure_then_eof :
  (drainEP0Events (quiet_world [failed_read; eof_read] 1)).2 = Returned /\
  sleeps (trace (drainEP0Events (quiet_world [failed_read; eof_read] 1)).1) = [1000000000] /\
  writes (trace (drainEP0Events (quiet_world [failed_read; eof_read] 1)).1) = [].
Proof. vm_compute. repeat split. Qed.

(** One of everything; the reads after the end-of-stream are never
    asked for. *)
Example run_mixed_script :
  drainEP0Events
    (quiet_world [ready_frame 8 0; short_read; enable_frame; foreign_frame;
                  failed_read; eof_read; ready_frame 8 0] 1) =
  ({| pending := [ready_frame 8 0];
      cell := fun _ => 1;
      wfate := fun _ => None;
      trace :=
        [ERead 12 None;
         ELog Info "parsed"
           [("type"%string, LInt 192); ("request"%string, LInt 1);
            ("length"%string, LInt 8)];
         ELoad 1;
         EWrite [84; 90; 83; 71; 1; 0; 1; 0] None;
         ERead 3 None;
         ELog Warn "ep0 read event too short" [("n"%string, LInt 3)];
         ERead 12 None;
         ERead 12 None;
         ELog Info "parsed"
           [("type"%string, LInt 65); ("request"%string, LInt 90);
            ("length"%string, LInt 8)];
         ELog Warn "Unhandled SETUP request, STALLING"
           [("type"%string, LInt 65); ("req"%string, LInt 90)];
         EWrite [] None;
         ERead 0 (Some (err_wrap "read ep0" (err_other "input/output error")));
         ELog Warn "ep0 read events failed; retrying"
           [("err"%string, LErr (err_wrap "read ep0" (err_other "input/output error")));
            ("delay"%string, LDuration 1000000000)];
         ESleep 1000000000;
         ERead 0 (Some io_EOF)] |},
   Returned).
Proof. vm_compute. reflexivity. Qed.

(** * The attempt limiter: facts *)


Module LimiterFacts.
Import Limiter.

Section Filter.
Context (P : Z -> Prop) `{!forall x, Decision (P x)}.

Lemma filter_all_hold (l : list Z) : Forall P (filter P l).
Proof. apply Forall_forall. intros x Hx. apply list_elem_of_filter in Hx. tauto. Qed.

Lemma filter_keeps (Q : Z -> Prop) (l : list Z) : Forall Q l -> Forall Q (filter P l).
Proof.
  rewrite !Forall_forall. intros HQ x Hx. apply list_elem_of_filter in Hx. apply HQ. tauto.
Qed.

Lemma filter_none (l : list Z) : Forall (fun x => ~ P x) l -> filter P l = [].
Proof.
  induction 1 as [|x l Hx _ IH]; [reflexivity|].
  rewrite filter_cons_False by exact Hx. exact IH.
Qed.

End Filter.

(** The limiter after a call keeps its window and its bound, and holds
    the attempts that were in the window, plus the new one if it was let
    through. *)
Lemma Allow_state l now :
  window (Allow l now).1 = window l /\
  max (Allow l now).1 = max l /\
  (attempts (Allow l now).1 = filter (fun ts => now + - window l < ts) (attempts l) \/
   (attempts (Allow l now).1 = filter (fun ts => now + - window l < ts) (attempts l) ++ [now] /\
    Z.of_nat (length (filter (fun ts => now + - window l < ts) (attempts l))) < max l /\
    (Allow l now).2 = Verdict true 0)).
Proof.
  unfold Allow. cbn.
  set (valid := filter _ (attempts l)).
  destruct (Z.leb_spec (max l) (Z.of_nat (length valid))) as [Hfull|Hroom].
  - destruct (valid !! 0%nat); cbn; auto.
  - cbn. split; [reflexivity|]. split; [reflexivity|]. right. auto.
Qed.

(** X1.  A limiter whose bound is zero or negative never lets a call
    through: it throttles while an attempt is in the window and panics on
    the index [attempts[0]] once none is, as on a new limiter. *)
Theorem nonpositive_max_never_allows l now :
  max l <= 0 ->
  (forall wait, (Allow l now).2 <> Verdict true wait) /\
  (Forall (fun ts => ts <= now - window l) (attempts l) ->
   (Allow l now).2 = Panic "index out of range [0] with length 0").
Proof.
  intros Hmax. unfold Allow. cbn.
  set (valid := filter _ (attempts l)).
  destruct (Z.leb_spec (max l) (Z.of_nat (length valid))) as [_|Hlt]; [|lia].
  split.
  - intros wait. destruct (valid !! 0%nat); cbn; discriminate.
  - intros Hstale.
    assert (Hnil : valid = []).
    { subst valid. apply filter_none.
      eapply Forall_impl; [exact Hstale|]. cbn. intros ts Hts. lia. }
    rewrite Hnil. reflexivity.
Qed.

(** X2.  With a positive window, whatever a call answers, the attempts the
    limiter holds afterwards all lie less than a window before the call;
    and none lies after it if none did before. *)
Theorem retained_attempts_lie_in_window l now :
  0 < window l ->
  Forall (fun ts => now - window l < ts) (attempts (Allow l now).1) /\
  (Forall (fun ts => ts <= now) (attempts l) ->
   Forall (fun ts => ts <= now) (attempts (Allow l now).1)).
Proof.
  intros Hw.
  destruct (Allow_state l now) as (_ & _ & [Hst|(Hst & _)]); rewrite Hst.
  - split.
    + eapply Forall_impl; [apply filter_all_hold|]. cbn. intros; lia.
    + apply filter_keeps.
  - split.
    + apply Forall_app. split.
      * eapply Forall_impl; [apply filter_all_hold|]. cbn. intros; lia.
      * repeat constructor. lia.
    + intros H. apply Forall_app. split; [apply filter_keeps; exact H|].
      repeat constructor. lia.
Qed.

Lemma Allow_keeps_bound l now :
  Z.of_nat (length (attempts l)) <= max l ->
  Z.of_nat (length (attempts (Allow l now).1)) <= max (Allow l now).1.
Proof.
  intros Hlen.
  destruct (Allow_state l now) as (_ & -> & [Hst|(Hst & Hroom & _)]); rewrite Hst.
  - pose proof (length_filter (fun ts => now + - window l < ts) (attempts l)). lia.
  - rewrite length_app. cbn. lia.
Qed.

(** X3.  A limiter that holds no more attempts than its bound still does
    after any series of calls, whatever they answer and whenever they are
    made, and its window and bound are those it started with. *)
Theorem bound_on_held_attempts_is_kept times : forall l l' out,
  Z.of_nat (length (attempts l)) <= max l ->
  calls l times = Some (l', out) ->
  Z.of_nat (length (attempts l')) <= max l' /\
  window l' = window l /\ max l' = max l /\
  map fst out = times.
Proof.
  induction times as [|now later IH]; intros l l' out Hlen Hcalls.
  - cbn in Hcalls. injection Hcalls as <- <-. auto.
  - cbn [calls] in Hcalls.
    pose proof (Allow_keeps_bound l now Hlen) as Hlen1.
    destruct (Allow_state l now) as (Hw1 & Hm1 & _).
    destruct (Allow l now) as [l1 [ok wait|msg]]; [|discriminate].
    cbn in Hlen1, Hw1, Hm1.
    destruct (calls l1 later) as [[l2 out2]|] eqn:Hlater; [|discriminate].
    injection Hcalls as <- <-.
    destruct (IH l1 l2 out2 Hlen1 Hlater) as (Hb & Hw & Hm & Hmap).
    split; [exact Hb|]. split; [congruence|]. split; [congruence|].
    cbn. rewrite Hmap. reflexivity.
Qed.

(** A throttled call: what the limiter holds and the wait, before the
    clamp. *)
Lemma Allow_throttled l now l' wait :
  Allow l now = (l', Verdict false wait) ->
  attempts l' = filter (fun ts => now + - window l < ts) (attempts l) /\
  exists oldest,
    attempts l' !! 0%nat = Some oldest /\
    now + - window l < oldest /\
    wait = if oldest + window l - now <? 0 then 0 else oldest + window l - now.
Proof.
  unfold Allow. cbn.
  set (valid := filter _ (attempts l)).
  destruct (Z.leb_spec (max l) (Z.of_nat (length valid))) as [_|_]; [|discriminate].
  destruct (valid !! 0%nat) as [oldest|] eqn:Hold; [|discriminate].
  intros [= <- <-]. cbn.
  split; [reflexivity|]. exists oldest. split; [exact Hold|]. split; [|reflexivity].
  assert (Hall : Forall (fun ts => now + - window l < ts) valid) by apply filter_all_hold.
  rewrite Forall_lookup in Hall. exact (Hall _ _ Hold).
Qed.



Lemma calls_with_room times : forall l,
  Z.of_nat (length (attempts l)) + Z.of_nat (length times) <= max l ->
  exists l', calls l times = Some (l', map (fun t => (t, true)) times).
Proof.
  induction times as [|now later IH]; intros l Hroom; [eexists; reflexivity|].
  cbn [length] in Hroom.
  pose proof (length_filter (fun ts => now + - window l < ts) (attempts l)) as Hf.
  destruct (Allow_state l now) as (_ & Hm & [Hst|(Hst & _ & Hv)]).
  - (* the call cannot have found the limiter full *)
    exfalso. revert Hst. unfold Allow. cbn.
    set (valid := filter _ (attempts l)) in *.
    destruct (Z.leb_spec (max l) (Z.of_nat (length valid))) as [Hfull|_]; [lia|].
    cbn. intros Heq. apply (f_equal length) in Heq. rewrite length_app in Heq. cbn in Heq. lia.
  - cbn [calls]. destruct (Allow l now) as [l1 v] eqn:Hcall. cbn in Hst, Hm, Hv. subst v.
    destruct (IH l1) as (l' & Hcalls).
    { rewrite Hst, Hm, length_app. cbn. lia. }
    rewrite Hcalls. eexists. reflexivity.
Qed.

(** X6.  A new limiter lets through the first [max] calls made on it,
    whenever they are made. *)
Theorem new_limiter_allows_max_calls mx w times :
  Z.of_nat (length times) <= mx ->
  exists l',
    calls (newAttemptLimiter mx w) times = Some (l', map (fun t => (t, true)) times).
Proof. intros Hlen. apply calls_with_room. cbn. lia. Qed.

Lemma let_through_cons_false t out : let_through ((t, false) :: out) = let_through out.
Proof. reflexivity. Qed.

Lemma let_through_cons_true t out : let_through ((t, true) :: out) = t :: let_through out.
Proof. reflexivity. Qed.

(** Along calls made at instants that never go back, the limiter holds
    exactly the let-through instants that are less than a window old. *)
Lemma calls_track times : forall l A t0,
  1 <= max l -> 0 < window l ->
  attempts l = filter (fun a => t0 - window l < a) A ->
  Z.of_nat (length (attempts l)) <= max l ->
  Sorted Z.le (t0 :: times) ->
  exists l' out,
    calls l times = Some (l', out) /\
    map fst out = times /\
    attempts l' =
      filter (fun a => default t0 (last times) - window l < a) (A ++ let_through out) /\
    Z.of_nat (length (attempts l')) <= max l.
Proof.
  induction times as [|now later IH]; intros l A t0 Hmax Hw Hatt Hlen Hsorted.
  - exists l, []. cbn. rewrite app_nil_r. auto.
  - apply Sorted_inv in Hsorted as [Hsorted Hhd]. apply HdRel_inv in Hhd.
    assert (Hvalid : filter (fun ts => now + - window l < ts) (attempts l) =
                     filter (fun a => now - window l < a) A).
    { rewrite Hatt.
      rewrite (list_filter_iff (fun ts => now + - window l < ts)
                               (fun a => now - window l < a)) by (intros; lia).
      apply list_filter_filter_l. intros; lia. }
    pose proof (Allow_keeps_bound l now Hlen) as Hlen1.
    destruct (Allow_state l now) as (Hw1 & Hm1 & Hst).
    assert (Hsorted' : Sorted Z.le (now :: later)) by exact Hsorted.
    cbn [calls]. destruct (Allow l now) as [l1 v] eqn:Hcall. cbn in Hw1, Hm1, Hst, Hlen1.
    assert (Hlast : default t0 (last (now :: later)) = default now (last later)).
    { rewrite last_cons. destruct (last later); reflexivity. }
    rewrite Hlast.
    destruct Hst as [Hst|(Hst & Hroom & ->)].
    + (* throttled: a panic is excluded, the bound being at least 1 *)
      destruct v as [ok wait|msg].
      2:{ exfalso. revert Hcall. unfold Allow. cbn.
          set (valid := filter _ (attempts l)).
          destruct (Z.leb_spec (max l) (Z.of_nat (length valid))) as [Hfull|_];
            [|discriminate].
          destruct (valid !! 0%nat) eqn:H0; [discriminate|].
          apply lookup_ge_None in H0. lia. }
      assert (Hok : ok = false).
      { revert Hcall. unfold Allow. cbn.
        set (valid := filter _ (attempts l)) in *.
        destruct (Z.leb_spec (max l) (Z.of_nat (length valid))) as [_|Hr].
        - destruct (valid !! 0%nat); [|discriminate]. intros [= _ <- _]. reflexivity.
        - intros [= Hl1 _ _]. exfalso. rewrite <- Hl1 in Hst. cbn in Hst.
          apply (f_equal length) in Hst. rewrite length_app in Hst. cbn in Hst. lia. }
      subst ok.
      destruct (IH l1 A now) as (l' & out & Hcalls & Hmap & Hatt' & Hlen');
        [lia|lia|rewrite Hst, Hw1; exact Hvalid|lia|exact Hsorted'|].
      rewrite Hcalls. exists l', ((now, false) :: out).
      split; [reflexivity|]. split; [cbn; rewrite Hmap; reflexivity|].
      rewrite let_through_cons_false, <- Hw1, <- Hm1. split; [exact Hatt'|exact Hlen'].
    + destruct (IH l1 (A ++ [now]) now) as (l' & out & Hcalls & Hmap & Hatt' & Hlen');
        [lia|lia| |lia|exact Hsorted'|].
      { rewrite Hst, Hw1, Hvalid, filter_app. f_equal.
        rewrite filter_cons_True by lia. reflexivity. }
      rewrite Hcalls. exists l', ((now, true) :: out).
      split; [reflexivity|]. split; [cbn; rewrite Hmap; reflexivity|].
      rewrite let_through_cons_true, <- Hw1, <- Hm1.
      rewrite <- app_assoc in Hatt'. split; [exact Hatt'|exact Hlen'].
Qed.

(** X7.  The limit holds over any series of calls on a new limiter with a
    bound of at least 1 and a positive window, made at instants that never
    go back: no call panics, and at each call at most [max] of the calls
    let through so far (that one included) lie less than a window before
    it; those are the attempts the limiter then holds. *)
Theorem at_most_max_let_through_per_window mx w times t :
  1 <= mx -> 0 < w ->
  Sorted Z.le (times ++ [t]) ->
  exists l' out,
    calls (newAttemptLimiter mx w) (times ++ [t]) = Some (l', out) /\
    map fst out = times ++ [t] /\
    attempts l' = filter (fun a => t - w < a) (let_through out) /\
    Z.of_nat (length (filter (fun a => t - w < a) (let_through out))) <= mx.
Proof.
  intros Hmx Hw Hsorted.
  assert (Hfirst : exists t0, Sorted Z.le (t0 :: times ++ [t])).
  { destruct times as [|t1 rest].
    - exists t. repeat constructor. lia.
    - exists t1. cbn in *. constructor; [exact Hsorted|]. constructor. lia. }
  destruct Hfirst as (t0 & Hsorted0).
  destruct (calls_track (times ++ [t]) (newAttemptLimiter mx w) [] t0)
    as (l' & out & Hcalls & Hmap & Hatt & Hlen); cbn; try lia; try reflexivity.
  { exact Hsorted0. }
  rewrite last_snoc in Hatt. cbn in Hatt, Hlen.
  exists l', out. split; [exact Hcalls|]. split; [exact Hmap|].
  split; [exact Hatt|]. rewrite <- Hatt. exact Hlen.
Qed.

(** ** The limiter at work *)

Lemma nonpositive_max_witness :
  max (newAttemptLimiter 0 10) <= 0 /\
  (forall wait, (Allow (newAttemptLimiter 0 10) 5).2 <> Verdict true wait) /\
  (Forall (fun ts => ts <= 5 - window (newAttemptLimiter 0 10))
     (attempts (newAttemptLimiter 0 10)) ->
   (Allow (newAttemptLimiter 0 10) 5).2 = Panic "index out of range [0] with length 0").
Proof.
  assert (H : max (newAttemptLimiter 0 10) <= 0) by (cbn; lia).
  split; [exact H|].
  exact (nonpositive_max_never_allows (newAttemptLimiter 0 10) 5 H).
Defined.

Lemma retained_attempts_witness :
  0 < window full_limiter /\
  Forall (fun ts => 5 - window full_limiter < ts) (attempts (Allow full_limiter 5).1) /\
  (Forall (fun ts => ts <= 5) (attempts full_limiter) ->
   Forall (fun ts => ts <= 5) (attempts (Allow full_limiter 5).1)).
Proof.
  assert (H : 0 < window full_limiter) by (cbn; lia).
  split; [exact H|].
  exact (retained_attempts_lie_in_window full_limiter 5 H).
Defined.

Lemma bound_on_held_attempts_witness :
  Z.of_nat (length (attempts full_limiter)) <= max full_limiter /\
  calls full_limiter [5; 12] = Some (mkLimiter 10 2 [12], [(5, false); (12, true)]) /\
  Z.of_nat (length (attempts (mkLimiter 10 2 [12]))) <= max (mkLimiter 10 2 [12]) /\
  window (mkLimiter 10 2 [12]) = window full_limiter /\
  max (mkLimiter 10 2 [12]) = max full_limiter /\
  map fst [(5, false); (12, true)] = [5; 12].
Proof.
  assert (H : Z.of_nat (length (attempts full_limiter)) <= max full_limiter) by (cbn; lia).
  split; [exact H|]. split; [reflexivity|].
  exact (bound_on_held_attempts_is_kept [5; 12] full_limiter (mkLimiter 10 2 [12])
           [(5, false); (12, true)] H eq_refl).
Defined.



Lemma new_limiter_witness :
  Z.of_nat (length [0; 1]) <= 2 /\
  exists l',
    calls (newAttemptLimiter 2 10) [0; 1] = Some (l', map (fun t => (t, true)) [0; 1]).
Proof.
  assert (H : Z.of_nat (length [0; 1]) <= 2) by (cbn; lia).
  split; [exact H|].
  exact (new_limiter_allows_max_calls 2 10 [0; 1] H).
Defined.

Lemma at_most_max_witness :
  1 <= 2 /\ 0 < 10 /\
  Sorted Z.le ([0; 1; 2; 9; 10] ++ [11]) /\
  exists l' out,
    calls (newAttemptLimiter 2 10) ([0; 1; 2; 9; 10] ++ [11]) = Some (l', out) /\
    map fst out = [0; 1; 2; 9; 10] ++ [11] /\
    attempts l' = filter (fun a => 11 - 10 < a) (let_through out) /\
    Z.of_nat (length (filter (fun a => 11 - 10 < a) (let_through out))) <= 2.
Proof.
  assert (H1 : 1 <= 2) by lia.
  assert (H2 : 0 < 10) by lia.
  assert (Hs : Sorted Z.le ([0; 1; 2; 9; 10] ++ [11])) by (cbn; repeat constructor; lia).
  split; [exact H1|]. split; [exact H2|]. split; [exact Hs|].
  exact (at_most_max_let_through_per_window 2 10 [0; 1; 2; 9; 10] 11 H1 H2 Hs).
Defined.

End LimiterFacts.

(** * Reading the end of a log: facts *)


Module TailFacts.
Import Tail.

Lemma foldl_app_concat (acc : list Z) (l : list (list Z)) :
  foldl (fun buf chunk => buf ++ chunk) acc l = acc ++ concat l.
Proof.
  revert acc. induction l as [|c l IH]; intros acc; cbn.
  - rewrite app_nil_r. reflexivity.
  - rewrite IH, app_assoc. reflexivity.
Qed.

Lemma stitch_snoc chunks c : stitch (chunks ++ [c]) = c ++ stitch chunks.
Proof.
  unfold stitch. rewrite reverse_snoc. cbn. rewrite !foldl_app_concat. reflexivity.
Qed.

(** The chunks are read from the end of the file backwards, one block at
    a time and a shorter one first in the file; stitched, they give the
    file back from where the loop stands. *)
Lemma gather_whole f n passes : forall pos chunks,
  (forall p, f_fault f p = None) ->
  0 <= n ->
  0 <= pos <= Z.of_nat (length (f_data f)) ->
  (Z.to_nat pos <= passes)%nat ->
  stitch chunks = drop (Z.to_nat pos) (f_data f) ->
  exists chunks',
    gather passes f n [] pos chunks = Gathered chunks' /\
    stitch chunks' = f_data f.
Proof.
  induction passes as [|passes IH]; intros pos chunks Hok Hn Hpos Hfuel Hst.
  - assert (pos = 0) as -> by lia. cbn. exists chunks. split; [reflexivity|exact Hst].
  - cbn [gather length]. destruct (Z.ltb_spec 0 pos) as [Hgt|Hle].
    2:{ assert (pos = 0) as -> by lia. cbn. exists chunks. split; [reflexivity|exact Hst]. }
    destruct (Z.leb_spec (Z.of_nat 0) n) as [_|]; [|lia]. cbn [andb].
    set (read := if pos <? block then pos else block).
    assert (Hread : 0 < read <= pos).
    { subst read. unfold block. destruct (Z.ltb_spec pos (64 * 1024)); lia. }
    unfold ReadAt. rewrite Hok.
    set (got := take (Z.to_nat read) (drop (Z.to_nat (pos - read)) (f_data f))).
    assert (Hgot : length got = Z.to_nat read).
    { subst got. rewrite length_take, length_drop. lia. }
    destruct (Z.ltb_spec (Z.of_nat (length got)) read) as [Hshort|_]; [lia|].
    apply IH; [exact Hok|exact Hn|lia|lia|].
    rewrite stitch_snoc, Hst. subst got.
    replace (Z.to_nat pos) with (Z.to_nat (pos - read) + Z.to_nat read)%nat by lia.
    rewrite <- drop_drop. apply take_drop.
Qed.

(** Once the line being read is too long the scan can only fail. *)
Lemma scan_too_long s : forall cur,
  too_long cur -> scan cur s = ([], Some ErrTooLong).
Proof.
  unfold too_long. induction s as [|c s IH]; intros cur Hlong; cbn.
  - destruct (decide (cur = [])) as [->|_].
    + cbn in Hlong. unfold MaxScanTokenSize in Hlong. lia.
    + destruct (Z.leb_spec MaxScanTokenSize (Z.of_nat (length cur))); [reflexivity|lia].
  - destruct (c =? 10).
    + destruct (Z.leb_spec MaxScanTokenSize (Z.of_nat (length cur))); [reflexivity|lia].
    + apply IH. rewrite length_app. cbn. lia.
Qed.

(** Reading on to the end of a line. *)
Lemma scan_line line : forall cur rest,
  10 ∉ line ->
  scan cur (line ++ 10 :: rest) =
    if MaxScanTokenSize <=? Z.of_nat (length (cur ++ line)) then ([], Some ErrTooLong)
    else let '(lines, err) := scan [] rest in (dropCR (cur ++ line) :: lines, err).
Proof.
  induction line as [|c line IH]; intros cur rest Hnl.
  - cbn. rewrite app_nil_r. reflexivity.
  - apply not_elem_of_cons in Hnl as [Hc Hnl]. cbn.
    destruct (Z.eqb_spec c 10) as [->|_]; [contradiction|].
    rewrite IH by exact Hnl. rewrite <- app_assoc. reflexivity.
Qed.

(** Reading the last line, which no newline ends. *)
Lemma scan_last line : forall cur,
  10 ∉ line ->
  scan cur line =
    if decide (cur ++ line = []) then ([], None)
    else if MaxScanTokenSize <=? Z.of_nat (length (cur ++ line)) then ([], Some ErrTooLong)
    else ([dropCR (cur ++ line)], None).
Proof.
  induction line as [|c line IH]; intros cur Hnl.
  - cbn. rewrite app_nil_r. reflexivity.
  - apply not_elem_of_cons in Hnl as [Hc Hnl]. cbn.
    destruct (Z.eqb_spec c 10) as [->|_]; [contradiction|].
    rewrite IH by exact Hnl. rewrite <- app_assoc. reflexivity.
Qed.

Lemma scan_records records : forall final,
  Forall (fun r => (10 ∉ r) /\ ~ too_long r) records ->
  10 ∉ final -> ~ too_long final ->
  scan [] (concat (map (fun r => r ++ [10]) records) ++ final) =
    (lines_of records final, None).
Proof.
  unfold lines_of, too_long.
  induction records as [|r records IH]; intros final Hrec Hfin Hshort.
  - cbn [map concat app]. rewrite scan_last by exact Hfin. cbn [app].
    destruct (decide (final = [])); [reflexivity|].
    destruct (Z.leb_spec MaxScanTokenSize (Z.of_nat (length final))); [lia|reflexivity].
  - apply Forall_cons in Hrec as [[Hnl Hr] Hrec].
    cbn [map concat]. rewrite <- !app_assoc. cbn [app].
    rewrite scan_line by exact Hnl. cbn [app].
    destruct (Z.leb_spec MaxScanTokenSize (Z.of_nat (length r))); [lia|].
    rewrite (IH final Hrec Hfin Hshort). reflexivity.
Qed.

(** A run of bytes without a newline that is too long makes the scan
    fail, wherever it lies. *)
Lemma scan_long_run pre : forall cur long post,
  10 ∉ long -> too_long long ->
  (scan cur (pre ++ long ++ post)).2 = Some ErrTooLong.
Proof.
  induction pre as [|c pre IH]; intros cur long post Hnl Hlong.
  - cbn [app]. revert cur. induction long as [|c long IHl] using rev_ind; intros cur.
    + unfold too_long, MaxScanTokenSize in Hlong. cbn in Hlong. lia.
    + clear IHl. destruct post as [|d post].
      * rewrite app_nil_r, scan_last by exact Hnl.
        destruct (decide (cur ++ long ++ [c] = [])) as [He|_].
        { apply (f_equal length) in He. rewrite !length_app in He. cbn in He. lia. }
        unfold too_long in Hlong. rewrite length_app.
        destruct (Z.leb_spec MaxScanTokenSize (Z.of_nat (length cur + length (long ++ [c]))));
          [reflexivity|lia].
      * destruct (Z.eqb_spec d 10) as [->|Hd].
        -- rewrite scan_line by exact Hnl. unfold too_long in Hlong. rewrite length_app.
           destruct (Z.leb_spec MaxScanTokenSize
                       (Z.of_nat (length cur + length (long ++ [c])))); [reflexivity|lia].
        -- (* the run goes on: read it as part of a longer one *)
           assert (Hgo : forall s cur', too_long cur' -> (scan cur' s).2 = Some ErrTooLong)
             by (intros s cur' H; rewrite scan_too_long by exact H; reflexivity).
           assert (Hsplit : forall l cur' s, 10 ∉ l ->
                     scan cur' (l ++ s) = scan (cur' ++ l) s).
           { clear. induction l as [|x l IHl]; intros cur' s Hl.
             - rewrite app_nil_r. reflexivity.
             - apply not_elem_of_cons in Hl as [Hx Hl]. cbn.
               destruct (Z.eqb_spec x 10) as [->|_]; [contradiction|].
               rewrite IHl by exact Hl. rewrite <- app_assoc. reflexivity. }
           rewrite Hsplit by exact Hnl. apply Hgo.
           unfold too_long in *. rewrite length_app. lia.
  - cbn [app scan]. destruct (c =? 10).
    + destruct (MaxScanTokenSize <=? Z.of_nat (length cur)); [reflexivity|].
      specialize (IH [] long post Hnl Hlong).
      destruct (scan [] (pre ++ long ++ post)) as [ls e]. exact IH.
    + apply IH; assumption.
Qed.


(** X8.  Whatever [n] is, the whole file is read and scanned.  For a file
    made of newline-terminated records and possibly a last unterminated
    line, none of them of 64 KiB or more, the result is the last [n] of
    its lines ([n <= 0] standing for 100), each without its trailing
    carriage return, or all of them when there are fewer. *)
Theorem tail_gives_last_lines open path n f records final :
  open path = inl f ->
  f_stat_ok f = true ->
  (forall pos, f_fault f pos = None) ->
  f_data f = concat (map (fun r => r ++ [10]) records) ++ final ->
  Forall (fun r => (10 ∉ r) /\ ~ too_long r) records ->
  10 ∉ final -> ~ too_long final ->
  let wanted := Z.to_nat (if n <=? 0 then 100 else n) in
  TailLastLines open path n =
    Lines (drop (length (lines_of records final) - wanted) (lines_of records final)) /\
  length (drop (length (lines_of records final) - wanted) (lines_of records final)) =
    Nat.min wanted (length (lines_of records final)).
Proof.
  intros Hopen Hstat Hok Hdata Hrec Hfin Hshort wanted.
  split; [|rewrite length_drop; lia].
  unfold TailLastLines. rewrite Hopen, Hstat. cbn [negb].
  set (n' := if n <=? 0 then 100 else n) in *.
  assert (Hn' : 0 < n') by (subst n'; destruct (Z.leb_spec n 0); lia).
  destruct (gather_whole f n' (Z.to_nat (Z.of_nat (length (f_data f))))
              (Z.of_nat (length (f_data f))) [])
    as (chunks & -> & Hst); [exact Hok|lia|lia|lia| |].
  { rewrite Nat2Z.id, drop_all. reflexivity. }
  rewrite Hst, Hdata, (scan_records records final Hrec Hfin Hshort).
  subst wanted. destruct (Z.ltb_spec n' (Z.of_nat (length (lines_of records final)))).
  - reflexivity.
  - replace (length (lines_of records final) - Z.to_nat n')%nat with 0%nat by lia.
    reflexivity.
Qed.

(** X9.  One run of 64 KiB or more without a newline anywhere in the
    file, however far from its end, makes the call fail with
    [bufio.ErrTooLong], whatever [n] is. *)
Theorem tail_fails_on_a_long_line_anywhere open path n f pre long post :
  open path = inl f ->
  f_stat_ok f = true ->
  (forall pos, f_fault f pos = None) ->
  f_data f = pre ++ long ++ post ->
  10 ∉ long -> too_long long ->
  TailLastLines open path n = Fail ErrTooLong.
Proof.
  intros Hopen Hstat Hok Hdata Hnl Hlong.
  unfold TailLastLines. rewrite Hopen, Hstat. cbn [negb].
  set (n' := if n <=? 0 then 100 else n) in *.
  assert (Hn' : 0 < n') by (subst n'; destruct (Z.leb_spec n 0); lia).
  destruct (gather_whole f n' (Z.to_nat (Z.of_nat (length (f_data f))))
              (Z.of_nat (length (f_data f))) [])
    as (chunks & -> & Hst); [exact Hok|lia|lia|lia| |].
  { rewrite Nat2Z.id, drop_all. reflexivity. }
  rewrite Hst, Hdata.
  pose proof (scan_long_run pre [] long post Hnl Hlong) as Herr.
  destruct (scan [] (pre ++ long ++ post)) as [ls e]. cbn in Herr. subst e. reflexivity.
Qed.

(** ** Two logs *)

Lemma tail_last_lines_witness :
  let records := [[111; 110; 101; 13]; [116; 119; 111]] in
  let final := [101; 110; 100] in
  f_data sample_log = concat (map (fun r => r ++ [10]) records) ++ final /\
  Forall (fun r => (10 ∉ r) /\ ~ too_long r) records /\
  (10 ∉ final) /\ ~ too_long final /\
  TailLastLines (fun _ => inl sample_log) "registrar.log" 2 =
    Lines (drop (length (lines_of records final) - 2) (lines_of records final)) /\
  length (drop (length (lines_of records final) - 2) (lines_of records final)) =
    Nat.min 2 (length (lines_of records final)).
Proof.
  intros records final.
  assert (Hshort : forall l : list Z, (length l <= 4)%nat -> ~ too_long l).
  { intros l Hl. unfold too_long, MaxScanTokenSize. lia. }
  assert (Hrec : Forall (fun r => (10 ∉ r) /\ ~ too_long r) records).
  { repeat constructor;
      try (intros Hin; repeat (apply elem_of_cons in Hin as [Hin|Hin]; [discriminate|]);
           apply elem_of_nil in Hin; exact Hin);
      apply Hshort; cbn; lia. }
  assert (Hnl : 10 ∉ final).
  { intros Hin. repeat (apply elem_of_cons in Hin as [Hin|Hin]; [discriminate|]).
    apply elem_of_nil in Hin. exact Hin. }
  assert (Hfin : ~ too_long final) by (apply Hshort; cbn; lia).
  split; [reflexivity|]. split; [exact Hrec|]. split; [exact Hnl|]. split; [exact Hfin|].
  exact (tail_gives_last_lines (fun _ => inl sample_log) "registrar.log" 2 sample_log
           records final eq_refl eq_refl (fun _ => eq_refl) eq_refl Hrec Hnl Hfin).
Defined.

Lemma tail_long_line_witness :
  f_data long_log = [97; 10] ++ long_run ++ [10; 98] /\
  (10 ∉ long_run) /\ too_long long_run /\
  TailLastLines (fun _ => inl long_log) "registrar.log" 1 = Fail ErrTooLong.
Proof.
  assert (Hnl : 10 ∉ long_run).
  { unfold long_run. intros Hin. apply elem_of_replicate in Hin as [Heq _]. discriminate Heq. }
  assert (Hlong : too_long long_run).
  { unfold too_long, long_run. rewrite length_replicate, Z2Nat.id; [lia|].
    unfold MaxScanTokenSize. lia. }
  split; [reflexivity|]. split; [exact Hnl|]. split; [exact Hlong|].
  exact (tail_fails_on_a_long_line_anywhere (fun _ => inl long_log) "registrar.log" 1
           long_log [97; 10] long_run [10; 98] eq_refl eq_refl (fun _ => eq_refl) eq_refl
           Hnl Hlong).
Defined.

End TailFacts.

(** * The log file writer: facts *)


Module SimpleLogFacts.
Import SimpleLog.

Lemma healthy_did o c d : healthy d -> healthy (did o c d).
Proof. intros H i. apply H. Qed.

Lemma healthy_next d : healthy d -> next_fault d = None.
Proof. intros H. apply H. Qed.

(** On a healthy disk [openFile] leaves the writer with a fresh open file
    and the log file empty. *)
Lemma openFile_healthy w d :
  healthy d ->
  exists d',
    openFile w d = (set_File w (Some {| closed := false |}), d', None) /\
    content d' = Some [] /\ healthy d'.
Proof.
  intros H. unfold openFile, os_OpenFile. rewrite (healthy_next d H). cbn.
  eexists. split; [reflexivity|]. split; [reflexivity|].
  unfold os_Chmods. repeat apply healthy_did. exact H.
Qed.

Lemma openFile_MaxSize w d : MaxSize (openFile w d).1.1 = MaxSize w.
Proof.
  unfold openFile, os_OpenFile, os_Remove.
  destruct (next_fault d) as [flt|]; cbn; [|reflexivity].
  destruct (is_permission (fault_err flt)); cbn; [|reflexivity].
  repeat (case_match; simplify_eq/=); reflexivity.
Qed.

Lemma New_MaxSize path ms d d' w :
  NewSimpleLogResetWriter path ms d = (d', inl w) -> MaxSize w = ms.
Proof.
  unfold NewSimpleLogResetWriter.
  pose proof (openFile_MaxSize
                {| FilePath := path; MaxSize := ms; written := 0; File := None |} d) as Hm.
  destruct (openFile _ d) as [[w0 d0] [e|]]; [discriminate|].
  intros [= _ <-]. exact Hm.
Qed.

Lemma Write_healthy w d c p :
  healthy d -> synced w d c ->
  exists w' d',
    Write w d p = (w', d', (Z.of_nat (length p), None)) /\
    synced w' d' (if MaxSize w <=? Z.of_nat (length c) then p else c ++ p) /\
    MaxSize w' = MaxSize w /\
    healthy d'.
Proof.
  intros H (HF & Hc & Hw). unfold Write, resetIfNeeded. rewrite Hw.
  destruct (Z.leb_spec (MaxSize w) (Z.of_nat (length c))) as [Hfull|Hroom].
  - cbn [set_written File]. rewrite HF. unfold File_Close. cbn [closed].
    rewrite ?(healthy_next d H).
    set (d1 := did OpClose (content d) d).
    assert (H1 : healthy d1) by (apply healthy_did; exact H).
    destruct (openFile_healthy
                (set_File (set_written w 0) (Some {| closed := true |})) d1 H1)
      as (d2 & -> & Hc2 & H2).
    cbn [set_written set_File File written MaxSize FilePath].
    unfold File_Write. cbn [closed]. rewrite (healthy_next d2 H2), Hc2. cbn [default app].
    eexists _, _. split; [reflexivity|]. split; [|split; [reflexivity|]].
    + split; [reflexivity|]. split; [reflexivity|]. cbn. lia.
    + apply healthy_did. exact H2.
  - cbn [set_written File]. rewrite HF. unfold File_Write. cbn [closed].
    rewrite (healthy_next d H), Hc. cbn [default].
    eexists _, _. split; [reflexivity|]. split; [|split; [reflexivity|]].
    + split; [exact HF|]. split; [reflexivity|]. cbn. rewrite Hw, length_app. lia.
    + apply healthy_did. exact H.
Qed.

(** X10.  On a disk where no call fails, a write through a writer in step
    with its file succeeds in full and leaves it in step.  If the bytes
    counted had reached [MaxSize] the file was emptied first and now holds
    this record alone, what it held being lost; otherwise the record went
    after what it held.  With [MaxSize <= 0] every write empties the file
    first. *)
Theorem write_appends_or_starts_over w d c p :
  healthy d -> synced w d c ->
  exists w' d',
    Write w d p = (w', d', (Z.of_nat (length p), None)) /\
    synced w' d' (if MaxSize w <=? Z.of_nat (length c) then p else c ++ p) /\
    (MaxSize w <= 0 -> content d' = Some p) /\
    (Z.of_nat (length c) < MaxSize w -> content d' = Some (c ++ p)).
Proof.
  intros H Hs. destruct (Write_healthy w d c p H Hs) as (w' & d' & HW & Hs' & _ & _).
  exists w', d'. split; [exact HW|]. split; [exact Hs'|].
  destruct Hs' as (_ & Hc' & _). rewrite Hc'.
  split; intros Hm; destruct (Z.leb_spec (MaxSize w) (Z.of_nat (length c))); try reflexivity; lia.
Qed.

Lemma New_healthy path ms d :
  healthy d ->
  exists w d',
    NewSimpleLogResetWriter path ms d = (d', inl w) /\
    synced w d' [] /\ MaxSize w = ms /\ healthy d'.
Proof.
  intros H. unfold NewSimpleLogResetWriter.
  destruct (openFile_healthy
              {| FilePath := path; MaxSize := ms; written := 0; File := None |} d H)
    as (d' & -> & Hc & H').
  eexists _, d'. split; [reflexivity|]. split; [|split; [reflexivity|exact H']].
  split; [reflexivity|]. split; [exact Hc|reflexivity].
Qed.

(** Through a series of writes on a healthy disk the file holds, whole,
    the records written since it was last emptied. *)
Lemma Writes_healthy ps : forall w d c done k,
  healthy d -> synced w d c ->
  c = concat (drop k done) -> (k <= length done)%nat ->
  exists w' d' c' k',
    Writes w d ps = (w', d', map (fun p => (Z.of_nat (length p), None)) ps) /\
    synced w' d' c' /\ MaxSize w' = MaxSize w /\ healthy d' /\
    c' = concat (drop k' (done ++ ps)) /\
    (k' <= length (done ++ ps))%nat /\
    (ps = [] -> k' = k) /\
    (forall p, last ps = Some p ->
       (k' < length (done ++ ps))%nat /\
       Z.of_nat (length c') <= Z.max (MaxSize w - 1) 0 + Z.of_nat (length p)).
Proof.
  induction ps as [|p ps IH]; intros w d c done k H Hs Hc Hk.
  - exists w, d, c, k. rewrite app_nil_r. cbn.
    split; [reflexivity|]. split; [exact Hs|]. split; [reflexivity|]. split; [exact H|].
    split; [exact Hc|]. split; [exact Hk|]. split; [reflexivity|]. intros p [=].
  - destruct (Write_healthy w d c p H Hs) as (w1 & d1 & HW & Hs1 & Hm1 & H1).
    set (c1 := if MaxSize w <=? Z.of_nat (length c) then p else c ++ p) in *.
    assert (Hc1 : exists k1, c1 = concat (drop k1 (done ++ [p])) /\
                             (k1 <= length done)%nat /\
                             Z.of_nat (length c1) <= Z.max (MaxSize w - 1) 0 + Z.of_nat (length p)).
    { subst c1. destruct (Z.leb_spec (MaxSize w) (Z.of_nat (length c))) as [Hfull|Hroom].
      - exists (length done). split; [|split; [lia|lia]].
        rewrite drop_app_length. cbn. rewrite app_nil_r. reflexivity.
      - exists k. split; [|split; [exact Hk|rewrite length_app; lia]].
        rewrite drop_app_le by exact Hk. rewrite concat_app, <- Hc. cbn.
        rewrite app_nil_r. reflexivity. }
    destruct Hc1 as (k1 & Hc1 & Hk1 & Hb1).
    destruct (IH w1 d1 c1 (done ++ [p]) k1 H1 Hs1 Hc1)
      as (w' & d' & c' & k' & HWs & Hs' & Hm' & H' & Hc' & Hk' & Hnil & Hlast).
    { rewrite length_app. cbn. lia. }
    cbn [Writes map]. rewrite HW, HWs.
    rewrite <- app_assoc in Hc', Hk', Hlast. cbn [app] in Hc', Hk', Hlast.
    exists w', d', c', k'. split; [reflexivity|]. split; [exact Hs'|].
    split; [congruence|]. split; [exact H'|]. split; [exact Hc'|]. split; [exact Hk'|].
    split; [discriminate|].
    intros q Hq. destruct ps as [|p2 ps].
    + cbn in Hq. injection Hq as <-. specialize (Hnil eq_refl). subst k'.
      rewrite <- Hc1 in Hc'. subst c'.
      split; [rewrite length_app; cbn; lia|exact Hb1].
    + rewrite Hm1 in Hlast. apply Hlast. rewrite last_cons in Hq.
      destruct (last (p2 :: ps)) eqn:Hl; [exact Hq|].
      apply last_None in Hl. discriminate.
Qed.

(** X11.  A writer made on a disk where no call fails, then given a
    series of records: every write succeeds in full, and the file ends up
    holding whole records only, namely the most recent ones from some
    record on, the last one always among them; it is never longer than
    [MaxSize - 1] bytes (or 0) plus the last record. *)
Theorem file_holds_the_latest_whole_records path ms d ps p :
  healthy d ->
  exists d0 w0 w' d' k c,
    NewSimpleLogResetWriter path ms d = (d0, inl w0) /\
    Writes w0 d0 (ps ++ [p]) =
      (w', d', map (fun q => (Z.of_nat (length q), None)) (ps ++ [p])) /\
    content d' = Some c /\
    c = concat (drop k (ps ++ [p])) /\
    (k <= length ps)%nat /\
    Z.of_nat (length c) <= Z.max (ms - 1) 0 + Z.of_nat (length p).
Proof.
  intros H. destruct (New_healthy path ms d H) as (w0 & d0 & Hnew & Hs0 & Hm0 & H0).
  destruct (Writes_healthy (ps ++ [p]) w0 d0 [] [] 0%nat H0 Hs0 eq_refl (Nat.le_refl _))
    as (w' & d' & c & k & HWs & Hs' & _ & _ & Hc & _ & _ & Hlast).
  destruct (Hlast p (last_snoc _ _)) as [Hk Hb]. cbn [app] in Hc, Hk.
  rewrite length_app in Hk. cbn in Hk. rewrite Hm0 in Hb.
  exists d0, w0, w', d', k, c. destruct Hs' as (_ & Hcd & _).
  repeat split; try assumption. lia.
Qed.

(** X12.  A write that finds the writer without a file and cannot open
    one (the error is not a permission error, and the count is below
    [MaxSize]) returns 0 and that error and leaves the file as it was, but
    the bytes it did not write are added to the count all the same. *)
Theorem unopened_write_still_counts w d p flt :
  File w = None ->
  written w < MaxSize w ->
  next_fault d = Some flt ->
  is_permission (fault_err flt) = false ->
  exists w' d',
    Write w d p = (w', d', (0, Some (fault_err flt))) /\
    content d' = content d /\
    File w' = None /\
    written w' = written w + Z.of_nat (length p).
Proof.
  intros HF Hroom Hflt Hperm. unfold Write, resetIfNeeded.
  destruct (Z.leb_spec (MaxSize w) (written w)) as [|_]; [lia|].
  cbn [set_written File]. rewrite HF.
  unfold openFile, os_OpenFile. cbn [ops]. unfold next_fault in *. rewrite Hflt.
  cbn. rewrite Hperm. cbn.
  eexists _, _. repeat split.
Qed.

(** X13.  After [Close] the writer still holds its closed file.  The next
    write, on a healthy disk, fails with [os.ErrClosed] and writes nothing
    (its bytes are counted all the same) as long as the count is below
    [MaxSize]; once the count has reached [MaxSize] the write reopens the
    file, empty, and succeeds. *)
Theorem write_after_close w d c p :
  healthy d -> synced w d c ->
  exists w1 d1,
    Close w d = (w1, d1, None) /\
    content d1 = Some c /\
    (Z.of_nat (length c) < MaxSize w ->
     exists w2,
       Write w1 d1 p = (w2, d1, (0, Some ErrClosed)) /\
       written w2 = written w + Z.of_nat (length p)) /\
    (MaxSize w <= Z.of_nat (length c) ->
     exists w2 d2,
       Write w1 d1 p = (w2, d2, (Z.of_nat (length p), None)) /\
       synced w2 d2 p).
Proof.
  intros H (HF & Hc & Hw). unfold Close. rewrite HF. unfold File_Close. cbn [closed].
  rewrite (healthy_next d H).
  set (d1 := did OpClose (content d) d).
  assert (H1 : healthy d1) by (apply healthy_did; exact H).
  eexists _, d1. split; [reflexivity|]. split; [exact Hc|]. split.
  - intros Hroom. unfold Write, resetIfNeeded.
    cbn [set_File written MaxSize File]. rewrite Hw.
    destruct (Z.leb_spec (MaxSize w) (Z.of_nat (length c))) as [|_]; [lia|].
    cbn [set_written File]. unfold File_Write. cbn [closed].
    eexists. split; [reflexivity|]. cbn. rewrite ?Hw. reflexivity.
  - intros Hfull. unfold Write, resetIfNeeded.
    cbn [set_File written MaxSize File]. rewrite Hw.
    destruct (Z.leb_spec (MaxSize w) (Z.of_nat (length c))) as [_|]; [|lia].
    cbn [set_written set_File File written MaxSize FilePath].
    unfold File_Close. cbn [closed set_File File written MaxSize FilePath].
    match goal with
    | |- context [openFile ?x ?y] =>
        destruct (openFile_healthy x y H1) as (d2 & Hopen & Hc2 & H2); rewrite Hopen
    end.
    cbn [set_written set_File File written MaxSize FilePath].
    unfold File_Write. cbn [closed]. rewrite (healthy_next d2 H2), Hc2. cbn [default app].
    eexists _, _. split; [reflexivity|].
    split; [reflexivity|]. split; [reflexivity|]. cbn. lia.
Qed.

(** X14.  When the first open of the log file is refused for lack of
    permission, the file is removed and opened again: if the removal
    fails, the permission error is what [NewSimpleLogResetWriter] returns,
    after just those two calls; if it succeeds and nothing fails after
    it, the writer is made over a new, empty file. *)
Theorem unwritable_log_file_is_replaced path ms d flt :
  next_fault d = Some flt ->
  is_permission (fault_err flt) = true ->
  (forall rm, faults d (S (length (ops d))) = Some rm ->
     exists d',
       NewSimpleLogResetWriter path ms d = (d', inr (fault_err flt)) /\
       ops d' = ops d ++ [OpOpen; OpRemove] /\
       content d' = content d) /\
  ((forall i, (length (ops d) < i)%nat -> faults d i = None) ->
   exists w d',
     NewSimpleLogResetWriter path ms d = (d', inl w) /\
     synced w d' [] /\
     ops d' = ops d ++ [OpOpen; OpRemove; OpOpen; OpChmodFile; OpChmodPath]).
Proof.
  intros Hflt Hperm. split.
  - intros rm Hrm.
    unfold NewSimpleLogResetWriter, openFile, os_OpenFile. rewrite Hflt. cbn.
    rewrite Hperm. unfold os_Remove, next_fault. cbn [did ops faults].
    rewrite length_app. cbn [length]. rewrite Nat.add_1_r, Hrm. cbn.
    eexists. split; [reflexivity|]. split; [|reflexivity].
    cbn. rewrite <- ?app_assoc. reflexivity.
  - intros Hlater.
    unfold NewSimpleLogResetWriter, openFile, os_OpenFile. rewrite Hflt. cbn.
    rewrite Hperm. unfold os_Remove, next_fault. cbn [did ops faults].
    rewrite length_app. cbn [length]. rewrite Hlater by lia. cbn.
    unfold next_fault. cbn [did ops faults]. rewrite !length_app. cbn [length].
    rewrite Hlater by lia. cbn.
    eexists _, _. split; [reflexivity|]. split.
    + split; [reflexivity|]. split; reflexivity.
    + cbn. rewrite <- ?app_assoc. reflexivity.
Qed.

(** ** The writer at work *)

Lemma clean_disk_healthy c : healthy (clean_disk c).
Proof. intros i. reflexivity. Defined.

Lemma open_writer_synced ms c : synced (open_writer ms (Z.of_nat (length c))) (clean_disk (Some c)) c.
Proof. repeat split. Defined.

Lemma write_appends_witness :
  healthy (clean_disk (Some [1; 2; 3])) /\
  synced (open_writer 5 3) (clean_disk (Some [1; 2; 3])) [1; 2; 3] /\
  exists w' d',
    Write (open_writer 5 3) (clean_disk (Some [1; 2; 3])) [4; 5] =
      (w', d', (Z.of_nat (length [4; 5]), None)) /\
    synced w' d'
      (if MaxSize (open_writer 5 3) <=? Z.of_nat (length [1; 2; 3])
       then [4; 5] else [1; 2; 3] ++ [4; 5]) /\
    (MaxSize (open_writer 5 3) <= 0 -> content d' = Some [4; 5]) /\
    (Z.of_nat (length [1; 2; 3]) < MaxSize (open_writer 5 3) ->
     content d' = Some ([1; 2; 3] ++ [4; 5])).
Proof.
  split; [apply clean_disk_healthy|]. split; [exact (open_writer_synced 5 [1; 2; 3])|].
  exact (write_appends_or_starts_over (open_writer 5 3) (clean_disk (Some [1; 2; 3]))
           [1; 2; 3] [4; 5] (clean_disk_healthy _) (open_writer_synced 5 [1; 2; 3])).
Defined.

Lemma latest_records_witness :
  healthy (clean_disk None) /\
  exists d0 w0 w' d' k c,
    NewSimpleLogResetWriter "registrar.log" 4 (clean_disk None) = (d0, inl w0) /\
    Writes w0 d0 ([[1; 2]; [3; 4]] ++ [[5]]) =
      (w', d', map (fun q => (Z.of_nat (length q), None)) ([[1; 2]; [3; 4]] ++ [[5]])) /\
    content d' = Some c /\
    c = concat (drop k ([[1; 2]; [3; 4]] ++ [[5]])) /\
    (k <= length [[1; 2]; [3; 4]])%nat /\
    Z.of_nat (length c) <= Z.max (4 - 1) 0 + Z.of_nat (length [5]).
Proof.
  split; [apply clean_disk_healthy|].
  exact (file_holds_the_latest_whole_records "registrar.log" 4 (clean_disk None)
           [[1; 2]; [3; 4]] [5] (clean_disk_healthy _)).
Defined.

Lemma unopened_write_witness :
  let d := faulty_disk (Some [7]) [0%nat] (ErrIO "no space left on device") in
  let flt := {| fault_err := ErrIO "no space left on device"; fault_partial := 0 |} in
  File (idle_writer 5 0) = None /\
  written (idle_writer 5 0) < MaxSize (idle_writer 5 0) /\
  next_fault d = Some flt /\
  is_permission (fault_err flt) = false /\
  exists w' d',
    Write (idle_writer 5 0) d [1; 2] = (w', d', (0, Some (fault_err flt))) /\
    content d' = content d /\
    File w' = None /\
    written w' = written (idle_writer 5 0) + Z.of_nat (length [1; 2]).
Proof.
  intros d flt.
  assert (Hroom : written (idle_writer 5 0) < MaxSize (idle_writer 5 0)) by (cbn; lia).
  split; [reflexivity|]. split; [exact Hroom|]. split; [reflexivity|]. split; [reflexivity|].
  exact (unopened_write_still_counts (idle_writer 5 0) d [1; 2] flt
           eq_refl Hroom eq_refl eq_refl).
Defined.

Lemma write_after_close_witness :
  healthy (clean_disk (Some [1; 2; 3])) /\
  synced (open_writer 5 3) (clean_disk (Some [1; 2; 3])) [1; 2; 3] /\
  exists w1 d1,
    Close (open_writer 5 3) (clean_disk (Some [1; 2; 3])) = (w1, d1, None) /\
    content d1 = Some [1; 2; 3] /\
    (Z.of_nat (length [1; 2; 3]) < MaxSize (open_writer 5 3) ->
     exists w2,
       Write w1 d1 [4] = (w2, d1, (0, Some ErrClosed)) /\
       written w2 = written (open_writer 5 3) + Z.of_nat (length [4])) /\
    (MaxSize (open_writer 5 3) <= Z.of_nat (length [1; 2; 3]) ->
     exists w2 d2,
       Write w1 d1 [4] = (w2, d2, (Z.of_nat (length [4]), None)) /\
       synced w2 d2 [4]).
Proof.
  split; [apply clean_disk_healthy|]. split; [exact (open_writer_synced 5 [1; 2; 3])|].
  exact (write_after_close (open_writer 5 3) (clean_disk (Some [1; 2; 3])) [1; 2; 3] [4]
           (clean_disk_healthy _) (open_writer_synced 5 [1; 2; 3])).
Defined.

Lemma unwritable_log_file_witness :
  let d := faulty_disk (Some [7]) [0%nat] ErrPermission in
  let flt := {| fault_err := ErrPermission; fault_partial := 0 |} in
  next_fault d = Some flt /\
  is_permission (fault_err flt) = true /\
  (forall rm, faults d (S (length (ops d))) = Some rm ->
     exists d',
       NewSimpleLogResetWriter "registrar.log" 5 d = (d', inr (fault_err flt)) /\
       ops d' = ops d ++ [OpOpen; OpRemove] /\
       content d' = content d) /\
  ((forall i, (length (ops d) < i)%nat -> faults d i = None) ->
   exists w d',
     NewSimpleLogResetWriter "registrar.log" 5 d = (d', inl w) /\
     synced w d' [] /\
     ops d' = ops d ++ [OpOpen; OpRemove; OpOpen; OpChmodFile; OpChmodPath]).
Proof.
  intros d flt. split; [reflexivity|]. split; [reflexivity|].
  exact (unwritable_log_file_is_replaced "registrar.log" 5 d flt eq_refl eq_refl).
Defined.

End SimpleLogFacts.

(** * Configuration, handlers and the logger: facts *)


Module LoggingFacts.
Import Logging.

Lemma is_one_of_spec s cases : is_one_of s cases = true <-> In s cases.
Proof.
  induction cases as [|c cases IH]; cbn; [split; [discriminate|tauto]|].
  destruct (String.eqb_spec s c) as [->|Hne].
  - split; auto.
  - rewrite IH. split; [auto|]. intros [Heq|Hin]; [congruence|exact Hin].
Qed.

(** X15.  Whatever the environment holds and whatever the library's
    string functions make of it, the configuration read from it has one of
    the six known levels, none above [LevelFatal], a format that is
    "text" or "json", and asks to become the default logger.  Its size
    limit is 5 (not the 50 of [DefaultConfig]) unless it is the number
    [LOG_MAX_SIZE_MB] parses to, whatever its sign; and stderr is turned
    off only by one of the five words for no. *)
Theorem config_from_env_is_well_formed `{L : golib} getenv :
  let cfg := NewConfigFromEnv getenv in
  In (Level cfg) [LevelAll; LevelDebug; LevelInfo; LevelWarn; LevelError; LevelFatal] /\
  Level cfg <= LevelFatal /\
  (Format cfg = "text"%string \/ Format cfg = "json"%string) /\
  SetAsDefault cfg = true /\
  (MaxSizeMB cfg = 5 \/
   strconv_Atoi (getenv "LOG_MAX_SIZE_MB"%string) = Some (MaxSizeMB cfg)) /\
  (AlsoStderr cfg = false ->
   In (strings_ToLower (getenv "LOG_STDERR"%string)) ["0"; "false"; "f"; "no"; "n"]%string).
Proof.
  cbv zeta. unfold NewConfigFromEnv.
  cbn [Level Format SetAsDefault MaxSizeMB AlsoStderr DefaultConfig].
  split; [|split; [|split; [|split; [reflexivity|split]]]].
  - repeat match goal with
           | |- context [if ?b then _ else _] => destruct b
           end; cbn; tauto.
  - repeat match goal with
           | |- context [if ?b then _ else _] => destruct b
           end; unfold LevelAll, LevelDebug, LevelInfo, LevelWarn, LevelError, LevelFatal; lia.
  - repeat match goal with
           | |- context [if ?b then _ else _] => destruct b
           end; auto.
  - unfold envInt. destruct (String.eqb _ ""); [left; reflexivity|].
    destruct (strconv_Atoi _); [right; reflexivity|left; reflexivity].
  - unfold envBool. destruct (String.eqb _ ""); [discriminate|].
    destruct (is_one_of _ ["1"; "true"; "t"; "yes"; "y"]%string); [discriminate|].
    destruct (is_one_of _ ["0"; "false"; "f"; "no"; "n"]%string) eqn:Hno; [|discriminate].
    intros _. apply is_one_of_spec. exact Hno.
Qed.

(** X16.  The logger [New] builds accepts a level in two ways: the level
    is at or above the configured one and some text or JSON handler was
    made (the log file was opened, or stderr was asked for, or no file was
    asked for, since stderr is then the fallback); or a file was asked for
    and the level is at or above [LevelFatal], since the fatal-file
    handler is made whether or not the log file itself could be opened. *)
Theorem New_enabled_levels {A : Type} cfg (p : process A) lvl :
  built_Enabled (New cfg p).1.1 lvl = true <->
  (Level cfg <= lvl /\
   ((New cfg p).1.2 <> None \/ AlsoStderr cfg = true \/ File cfg = ""%string)) \/
  (LevelFatal <= lvl /\ File cfg <> ""%string).
Proof.
  New_cases cfg p;
    unfold MultiHandler_Enabled, fatal_Enabled; cbn;
    repeat match goal with
           | |- context [?a <=? ?b] => destruct (Z.leb_spec a b)
           end;
    split; intros Hyp; try reflexivity; try discriminate;
    try (exfalso; intuition (congruence || lia));
    intuition (congruence || lia || auto).
Qed.

Lemma env_level_at_most_fatal `{L : golib} getenv :
  Level (NewConfigFromEnv getenv) <= LevelFatal.
Proof.
  unfold NewConfigFromEnv. cbn [Level DefaultConfig].
  repeat match goal with
         | |- context [if ?b then _ else _] => destruct b
         end; unfold LevelAll, LevelDebug, LevelInfo, LevelWarn, LevelError, LevelFatal; lia.
Qed.

(** With a level that is not above [LevelFatal], the fatal-file handler
    accepts nothing the other handlers would not. *)
Lemma New_enabled_up_to_fatal {A : Type} cfg (p : process A) lvl :
  Level cfg <= LevelFatal ->
  (((New cfg p).1.2 <> None \/ AlsoStderr cfg = true \/ File cfg = ""%string) ->
   built_Enabled (New cfg p).1.1 lvl = (Level cfg <=? lvl)) /\
  ((New cfg p).1.2 = None -> AlsoStderr cfg = false -> File cfg <> ""%string ->
   built_Enabled (New cfg p).1.1 lvl = (LevelFatal <=? lvl)).
Proof.
  intros Hle.
  New_cases cfg p;
    unfold MultiHandler_Enabled, fatal_Enabled; cbn;
    repeat match goal with
           | |- context [?a <=? ?b] => destruct (Z.leb_spec a b)
           end;
    split; intros; try reflexivity; try discriminate; try congruence; try lia;
    exfalso; intuition (congruence || lia).
Qed.

(** X17.  For the logger [NewFromEnv] builds the two ways agree, a level
    read from the environment never being above [LevelFatal]: as long as
    some text or JSON handler was made, the logger accepts exactly the
    levels at or above the configured one.  When the log file was asked
    for but could not be opened and stderr is off, it accepts only
    [LevelFatal] and above, whatever level was configured. *)
Theorem env_logger_accepts_from_its_level `{L : golib} {A : Type} getenv (p : process A) lvl :
  let cfg := NewConfigFromEnv getenv in
  (((NewFromEnv getenv p).1.2 <> None \/ AlsoStderr cfg = true \/ File cfg = ""%string) ->
   built_Enabled (NewFromEnv getenv p).1.1 lvl = (Level cfg <=? lvl)) /\
  ((NewFromEnv getenv p).1.2 = None -> AlsoStderr cfg = false -> File cfg <> ""%string ->
   built_Enabled (NewFromEnv getenv p).1.1 lvl = (LevelFatal <=? lvl)).
Proof.
  intros cfg. unfold NewFromEnv. apply New_enabled_up_to_fatal. apply env_level_at_most_fatal.
Qed.

(** X18.  With no log file asked for, [New] leaves the disk and the
    current-file path alone and returns no writer, and the logger writes
    to stderr even when stderr was not asked for: as text then, whatever
    the format. *)
Theorem New_without_file_logs_to_stderr {A : Type} cfg (p : process A) :
  File cfg = ""%string ->
  (New cfg p).1.1 =
    Single (if AlsoStderr cfg && String.eqb (Format cfg) "json"
            then JSONHandler Stderr (Level cfg)
            else TextHandler Stderr (Level cfg)) /\
  (New cfg p).1.2 = None /\
  p_disk (New cfg p).2 = p_disk p /\
  curFilePath (New cfg p).2 = curFilePath p /\
  p_complaints (New cfg p).2 = p_complaints p.
Proof.
  intros Hfile. unfold New. rewrite Hfile. cbn [String.eqb negb].
  destruct (String.eqb (Format cfg) "json"), (AlsoStderr cfg), (SetAsDefault cfg);
    cbn; repeat split.
Qed.

Lemma wrap_int_mod x : wrap_int x = x - 2 ^ 64 * ((x + 2 ^ 63) / 2 ^ 64).
Proof. unfold wrap_int. rewrite Z.mod_eq by lia. lia. Qed.

Lemma wrap_int_small x : - 2 ^ 63 <= x < 2 ^ 63 -> wrap_int x = x.
Proof. intros H. unfold wrap_int. rewrite Z.mod_small by lia. lia. Qed.

Lemma int_mul_twice x : int_mul (int_mul x 1024) 1024 = wrap_int (x * 1048576).
Proof.
  unfold int_mul. rewrite (wrap_int_mod (x * 1024)).
  set (q := (x * 1024 + 2 ^ 63) / 2 ^ 64).
  unfold wrap_int.
  replace ((x * 1024 - 2 ^ 64 * q) * 1024 + 2 ^ 63)
    with (x * 1048576 + 2 ^ 63 + (- q * 1024) * 2 ^ 64) by lia.
  rewrite Z.mod_add by lia. reflexivity.
Qed.

(** X19.  The size limit [New] gives the log writer is [MaxSizeMB]
    mebibytes in 64-bit [int] arithmetic: the product itself from
    [-2^43] up to [2^43 - 1] MiB, a wrapped value outside ([2^43] MiB
    gives the most negative [int]).  A limit of zero or less, wrapped or
    not, makes every write through the writer empty the file first. *)
Theorem New_size_limit_wraps {A : Type} cfg (p : process A) w :
  (New cfg p).1.2 = Some w ->
  SimpleLog.MaxSize w = wrap_int (MaxSizeMB cfg * 1048576) /\
  (- 2 ^ 43 <= MaxSizeMB cfg < 2 ^ 43 -> SimpleLog.MaxSize w = MaxSizeMB cfg * 1048576) /\
  (MaxSizeMB cfg = 2 ^ 43 -> SimpleLog.MaxSize w = - 2 ^ 63) /\
  (SimpleLog.MaxSize w <= 0 ->
   forall d c rec, SimpleLog.healthy d -> SimpleLog.synced w d c ->
     SimpleLog.content (SimpleLog.Write w d rec).1.2 = Some rec).
Proof.
  intros Hw.
  assert (Hmax : SimpleLog.MaxSize w = wrap_int (MaxSizeMB cfg * 1048576)).
  { revert Hw. unfold New.
    destruct (String.eqb (File cfg) ""); cbn [negb].
    - destruct (AlsoStderr cfg), (String.eqb (Format cfg) "json"), (SetAsDefault cfg);
        cbn; discriminate.
    - destruct (SimpleLog.NewSimpleLogResetWriter _ _ _) as [d [w0|e]] eqn:Hnew;
        destruct (AlsoStderr cfg), (String.eqb (Format cfg) "json"), (SetAsDefault cfg);
        cbn; try discriminate; intros [= <-];
        rewrite <- int_mul_twice; exact (SimpleLogFacts.New_MaxSize _ _ _ _ _ Hnew). }
  split; [exact Hmax|]. split; [|split].
  - intros Hr. rewrite Hmax. apply wrap_int_small. lia.
  - intros Hr. rewrite Hmax, Hr. reflexivity.
  - intros Hneg d c rec Hd Hs.
    destruct (SimpleLogFacts.Write_healthy w d c rec Hd Hs)
      as (w' & d' & HW & (_ & Hc' & _) & _ & _).
    rewrite HW. cbn. rewrite Hc'.
    destruct (Z.leb_spec (SimpleLog.MaxSize w) (Z.of_nat (length c))); [reflexivity|lia].
Qed.

Section MultiHandlerFacts.

Context {S R A H : Type} `{!Handler S R A H}.

Lemma handle_all_spec (handlers : list H) (r : R) : forall (s : S) firstErr,
  handle_all handlers r s firstErr =
    (after_all handlers r s,
     match firstErr with
     | Some e => Some e
     | None => first_error (answers handlers r s)
     end).
Proof.
  induction handlers as [|h rest IH]; intros s firstErr; cbn.
  - destruct firstErr; reflexivity.
  - destruct (Handle h r s) as [s1 err]. rewrite IH. cbn.
    destruct firstErr, err; reflexivity.
Qed.

Lemma answers_length (handlers : list H) (r : R) : forall s : S,
  length (answers handlers r s) = length handlers.
Proof.
  induction handlers as [|h rest IH]; intros s; cbn; [reflexivity|].
  destruct (Handle h r s) as [s1 err]. cbn. rewrite IH. reflexivity.
Qed.

Lemma first_error_None (res : list (option error)) :
  first_error res = None <-> Forall (fun a => a = None) res.
Proof.
  unfold first_error. induction res as [|[e|] res IH]; cbn.
  - split; [constructor|reflexivity].
  - split; [discriminate|]. intros Hall. apply Forall_cons in Hall as [[=] _].
  - rewrite IH. split; [intros; constructor; auto|].
    intros Hall. apply Forall_cons in Hall as [_ Hall]. exact Hall.
Qed.

(** X20.  [MultiHandler.Handle] hands the record to every one of its
    handlers once, in order, each acting on the state the one before
    left; it asks none of them whether it is enabled for the record, and
    goes on after a handler fails.  It returns the first error there was,
    and none exactly when every handler returned none. *)
Theorem multi_handle_reaches_every_handler (m : MultiHandler H) (r : R) (s : S) :
  MultiHandler_Handle m r s =
    (after_all (hs m) r s, first_error (answers (hs m) r s)) /\
  length (answers (hs m) r s) = length (hs m) /\
  ((MultiHandler_Handle m r s).2 = None <->
   Forall (fun a => a = None) (answers (hs m) r s)) /\
  (forall before h after_,
     hs m = before ++ h :: after_ ->
     answers (hs m) r s !! length before = Some (Handle h r (after_all before r s)).2).
Proof.
  unfold MultiHandler_Handle. rewrite handle_all_spec.
  split; [reflexivity|]. split; [apply answers_length|]. split; [apply first_error_None|].
  intros before h after_ ->. clear m. revert s.
  induction before as [|b before IH]; intros s; cbn.
  - destruct (Handle h r s); reflexivity.
  - destruct (Handle b r s) as [s1 e1] eqn:Hb. cbn. apply IH.
Qed.

End MultiHandlerFacts.

Lemma fatal_derive_spec {A : Type} (steps : list (derive A)) : forall h : fatalFileHandler A,
  fatal_derive h steps =
    {| basePath := basePath h; format := format h;
       attrs := attrs h ++ attrs_of steps;
       groups := groups h ++ groups_of steps |}.
Proof.
  unfold fatal_derive, attrs_of, groups_of.
  induction steps as [|[more|name] steps IH]; intros h; cbn.
  - rewrite !app_nil_r. destruct h; reflexivity.
  - rewrite IH. cbn. rewrite <- app_assoc. reflexivity.
  - rewrite IH. cbn. rewrite <- app_assoc. reflexivity.
Qed.


(** X22.  [CurrentFile()] follows the log file only when it was opened:
    when [New] returns a writer, the path is the configured one, which is
    not empty, and nothing is printed; when it returns none, the path
    stays what it was before the call, even if that names the file of an
    earlier logger, and if a file was asked for the failure is printed
    once on stderr and not returned. *)
Theorem current_file_follows_the_opened_log {A : Type} cfg (p : process A) :
  (forall w, (New cfg p).1.2 = Some w ->
     curFilePath (New cfg p).2 = File cfg /\ File cfg <> ""%string /\
     p_complaints (New cfg p).2 = p_complaints p) /\
  ((New cfg p).1.2 = None ->
     curFilePath (New cfg p).2 = curFilePath p /\
     (File cfg <> ""%string ->
      exists e, p_complaints (New cfg p).2 = p_complaints p ++ [(File cfg, e)])).
Proof.
  split.
  - intros w0. New_cases cfg p; intros Hw; try discriminate Hw; repeat split; assumption.
  - New_cases cfg p; intros Hw; try discriminate Hw;
      (split; [reflexivity|]); intros Hne; try contradiction; eexists; reflexivity.
Qed.

(** ** A logger over a sample disk *)

Lemma New_without_file_witness :
  let p := fresh_process (SimpleLog.clean_disk None) in
  File DefaultConfig = ""%string /\
  (New DefaultConfig p).1.1 =
    Single (if AlsoStderr DefaultConfig && String.eqb (Format DefaultConfig) "json"
            then JSONHandler Stderr (Level DefaultConfig)
            else TextHandler Stderr (Level DefaultConfig)) /\
  (New DefaultConfig p).1.2 = None /\
  p_disk (New DefaultConfig p).2 = p_disk p /\
  curFilePath (New DefaultConfig p).2 = curFilePath p /\
  p_complaints (New DefaultConfig p).2 = p_complaints p.
Proof.
  intros p. split; [reflexivity|].
  exact (New_without_file_logs_to_stderr DefaultConfig p eq_refl).
Defined.

Lemma New_size_limit_witness :
  let p := fresh_process (SimpleLog.clean_disk None) in
  let w := SimpleLog.open_writer 5242880 0 in
  (New file_config p).1.2 = Some w /\
  SimpleLog.MaxSize w = wrap_int (MaxSizeMB file_config * 1048576) /\
  (- 2 ^ 43 <= MaxSizeMB file_config < 2 ^ 43 ->
   SimpleLog.MaxSize w = MaxSizeMB file_config * 1048576) /\
  (MaxSizeMB file_config = 2 ^ 43 -> SimpleLog.MaxSize w = - 2 ^ 63) /\
  (SimpleLog.MaxSize w <= 0 ->
   forall d c rec, SimpleLog.healthy d -> SimpleLog.synced w d c ->
     SimpleLog.content (SimpleLog.Write w d rec).1.2 = Some rec).
Proof.
  intros p w. split; [reflexivity|].
  exact (New_size_limit_wraps file_config p w eq_refl).
Defined.



Lemma env_logger_witness :
  let p := fresh_process (SimpleLog.clean_disk None) in
  let q := fresh_process (SimpleLog.faulty_disk None [0%nat] (SimpleLog.ErrIO "read-only file system")) in
  let cfg := @NewConfigFromEnv plain_golib file_only_env in
  (@NewFromEnv Z plain_golib file_only_env p).1.2 <> None /\
  built_Enabled (@NewFromEnv Z plain_golib file_only_env p).1.1 LevelInfo =
    (Level cfg <=? LevelInfo) /\
  (@NewFromEnv Z plain_golib file_only_env q).1.2 = None /\
  AlsoStderr cfg = false /\ File cfg <> ""%string /\
  built_Enabled (@NewFromEnv Z plain_golib file_only_env q).1.1 LevelInfo =
    (LevelFatal <=? LevelInfo).
Proof.
  intros p q cfg.
  assert (Hw : (@NewFromEnv Z plain_golib file_only_env p).1.2 <> None) by discriminate.
  assert (Hf : File cfg <> ""%string) by discriminate.
  split; [exact Hw|].
  split; [exact (proj1 (@env_logger_accepts_from_its_level plain_golib Z file_only_env p
                          LevelInfo) (or_introl Hw))|].
  split; [reflexivity|]. split; [reflexivity|]. split; [exact Hf|].
  exact (proj2 (@env_logger_accepts_from_its_level plain_golib Z file_only_env q LevelInfo)
           eq_refl eq_refl Hf).
Defined.

Lemma current_file_witness :
  let p := fresh_process (SimpleLog.clean_disk None) in
  let q := fresh_process (SimpleLog.faulty_disk None [0%nat] (SimpleLog.ErrIO "read-only file system")) in
  (New file_config p).1.2 = Some (SimpleLog.open_writer 5242880 0) /\
  (curFilePath (New file_config p).2 = File file_config /\
   File file_config <> ""%string /\
   p_complaints (New file_config p).2 = p_complaints p) /\
  (New file_config q).1.2 = None /\
  curFilePath (New file_config q).2 = curFilePath q /\
  (File file_config <> ""%string ->
   exists e, p_complaints (New file_config q).2 = p_complaints q ++ [(File file_config, e)]).
Proof.
  intros p q.
  split; [reflexivity|].
  split; [exact (proj1 (current_file_follows_the_opened_log file_config p)
                   (SimpleLog.open_writer 5242880 0) eq_refl)|].
  split; [reflexivity|].
  exact (proj2 (current_file_follows_the_opened_log file_config q) eq_refl).
Defined.

End LoggingFacts.

(** * More on the event loop *)

Section RegistrarMore.

Context {B : build}.

(** X23.  A write that fails is logged and the loop carries on: whether
    the frame is the ready request or a request the loop does not serve,
    when the write is refused the pass records it with its error, then
    the error line, and goes round to the next read. *)
Theorem failed_write_is_logged_and_loop_goes_on buf w r rest e :
  pending w = r :: rest ->
  setup_frame buf r ->
  wfate w (now w + 3)%nat = Some e ->
  exists answer msg,
    goes_round buf w
      (read_event buf r :: parsed_event (request_of buf r) :: answer ++
       [ELog Error msg [("err"%string, LErr e)]])
      (frame buf r) /\
    ((is_ready_request (request_of buf r) /\
      msg = "ep0 write vendor reply"%string /\
      answer = [ELoad (cell w (now w + 2)%nat);
                EWrite (vendorReplyData (cell w (now w + 2)%nat)
                          (wLength (request_of buf r))) (Some e)]) \/
     (~ is_ready_request (request_of buf r) /\
      msg = "ep0 write ZLP/STALL failed"%string /\
      answer = [stall_warning (request_of buf r); EWrite [] (Some e)])).
Proof.
  intros Hp [[He Hn] H8] Hfate.
  destruct (is_ready_request_dec (request_of buf r)) as [Hreq|Hreq].
  - eexists _, _. split; [|left; split; [exact Hreq|split; reflexivity]].
    eapply goes_round_intro; [exact Hp|].
    rewrite (run_ready buf w r rest Hp He Hn H8 Hreq), Hfate. reflexivity.
  - eexists _, _. split; [|right; split; [exact Hreq|split; reflexivity]].
    eapply goes_round_intro; [exact Hp|].
    rewrite (run_stall buf w r rest Hp He Hn H8 Hreq), Hfate. reflexivity.
Qed.

(** What one pass records after its read: no further read, at most one
    write, and a load of the cell only with a write. *)
Lemma pass_events buf w r rest :
  pending w = r :: rest ->
  exists evs out,
    run (iteration buf) w = (advance w rest (read_event buf r :: evs), out) /\
    reads evs = [] /\
    (length (writes evs) <= 1)%nat /\
    (length (loads evs) <= length (writes evs))%nat.
Proof.
  intros Hp.
  destruct (rr_err r) as [e|] eqn:He.
  - destruct (errors_Is_EOF e) eqn:Heof.
    + exists [], (Done Return). split; [eapply run_eof; eassumption|]. cbn. auto.
    + eexists _, _. split; [eapply run_failure; eassumption|]. cbn. auto.
  - destruct (Z.lt_ge_cases (read_n buf (rr_data r)) evSize) as [Hn|Hn].
    { eexists _, _. split; [apply run_short; assumption|]. cbn. auto. }
    destruct (fill buf (rr_data r) !! 8%nat) as [t|] eqn:H8.
    2:{ exists [], (Halted (Panicked "index out of range [8]")).
        split; [apply run_panic; assumption|]. cbn. auto. }
    destruct (Z.eq_dec t evTypeSetup) as [->|Ht].
    2:{ exists [], (Done (Continue (fill buf (rr_data r)))).
        split; [eapply run_other_event; eassumption|]. cbn. auto. }
    destruct (is_ready_request_dec (parseCtrlReq (take 8 (fill buf (rr_data r)))))
      as [Hreq|Hreq].
    + eexists _, _. split; [apply run_ready; assumption|].
      unfold write_events. destruct (wfate w _); cbn; auto.
    + eexists _, _. split; [apply run_stall; assumption|].
      unfold write_events. destruct (wfate w _); cbn; auto.
Qed.

Lemma ep0Loop_counts k : forall buf w,
  exists evs rest,
    (ep0Loop k buf w).1 = advance w rest evs /\
    (length (reads evs) + length rest = length (pending w))%nat /\
    (length (writes evs) <= length (reads evs))%nat /\
    (length (loads evs) <= length (writes evs))%nat.
Proof.
  induction k as [|k IH]; intros buf w.
  - exists [], (pending w). cbn. split; [|lia].
    unfold advance. rewrite app_nil_r. destruct w; reflexivity.
  - destruct (pending w) as [|r rest] eqn:Hp.
    + rewrite (ep0Loop_halt _ _ _ _ _ (run_blocked buf w Hp)).
      exists [], []. split; [|cbn; lia].
      cbn. unfold advance. rewrite app_nil_r, <- Hp. destruct w; reflexivity.
    + destruct (pass_events buf w r rest Hp) as (evs & out & Hrun & Hr & Hw & Hl).
      assert (Hone : exists evs1,
                 evs1 = read_event buf r :: evs /\
                 length (reads evs1) = 1%nat /\
                 (length (writes evs1) <= 1)%nat /\
                 (length (loads evs1) <= length (writes evs1))%nat).
      { eexists. split; [reflexivity|]. unfold read_event, reads, writes, loads in *.
        cbn. rewrite Hr. cbn. auto. }
      destruct Hone as (evs1 & -> & Hr1 & Hw1 & Hl1).
      destruct out as [[buf'|]|h].
      * rewrite (ep0Loop_continue _ _ _ _ _ Hrun).
        destruct (IH buf' (advance w rest (read_event buf r :: evs)))
          as (evs' & rest' & Hst & Hrd & Hwr & Hld).
        rewrite Hst, advance_advance. eexists _, rest'. split; [reflexivity|].
        unfold reads, writes, loads in *. rewrite !omap_app, !length_app.
        cbn [pending advance] in Hrd. cbn [length]. lia.
      * rewrite (ep0Loop_return _ _ _ _ Hrun).
        eexists _, rest. split; [reflexivity|]. cbn [length]. lia.
      * rewrite (ep0Loop_halt _ _ _ _ _ Hrun).
        eexists _, rest. split; [reflexivity|]. cbn [length]. lia.
Qed.

(** X24.  Over a whole run of [drainEP0Events], however it ends: every
    read recorded used up one of the reads to come, there are never more
    writes than reads (each frame is answered at most once), and the
    readiness cell is loaded at most once per write. *)
Theorem run_answers_each_frame_at_most_once w :
  exists evs rest,
    (drainEP0Events w).1 = advance w rest evs /\
    (length (reads evs) + length rest = length (pending w))%nat /\
    (length (writes evs) <= length (reads evs))%nat /\
    (length (loads evs) <= length (writes evs))%nat.
Proof. unfold drainEP0Events. apply ep0Loop_counts. Qed.

End RegistrarMore.

Lemma failed_write_witness :
  pending busy_world = [ready_frame 5 0; eof_read] /\
  setup_frame fresh_buf (ready_frame 5 0) /\
  wfate busy_world (now busy_world + 3)%nat = Some (err_other "broken pipe") /\
  exists answer msg,
    goes_round fresh_buf busy_world
      (read_event fresh_buf (ready_frame 5 0) ::
       parsed_event (request_of fresh_buf (ready_frame 5 0)) :: answer ++
       [ELog Error msg [("err"%string, LErr (err_other "broken pipe"))]])
      (frame fresh_buf (ready_frame 5 0)) /\
    ((is_ready_request (request_of fresh_buf (ready_frame 5 0)) /\
      msg = "ep0 write vendor reply"%string /\
      answer = [ELoad (cell busy_world (now busy_world + 2)%nat);
                EWrite (vendorReplyData (cell busy_world (now busy_world + 2)%nat)
                          (wLength (request_of fresh_buf (ready_frame 5 0))))
                  (Some (err_other "broken pipe"))]) \/
     (~ is_ready_request (request_of fresh_buf (ready_frame 5 0)) /\
      msg = "ep0 write ZLP/STALL failed"%string /\
      answer = [stall_warning (request_of fresh_buf (ready_frame 5 0));
                EWrite [] (Some (err_other "broken pipe"))])).
Proof.
  split; [reflexivity|]. split; [exact (ready_frame_is_setup 5 0)|]. split; [reflexivity|].
  exact (failed_write_is_logged_and_loop_goes_on fresh_buf busy_world (ready_frame 5 0)
           [eof_read] (err_other "broken pipe") eq_refl (ready_frame_is_setup 5 0) eq_refl).
Defined.
